(** * Smart Jemuran: telemetry parser, MQTT client state and fuzzy decision engine

    A shallow embedding of [src/smartjemuran/mqtt_handler.py] and
    [src/smartjemuran/fuzzy_logic.py], with the properties of the natural-language
    specification stated and proved over it.

    Conventions of the embedding.
    - A Python [str] is a Rocq [string]; every [ascii] stands for the code point
      of the same number (U+0000..U+00FF), and [lower], [strip] and the
      whitespace and digit classes act on these code points as Python's do.
    - A Python [float] is a [pyfloat]: an exact rational, an infinity or NaN.
      Rounding of binary floating point is not modelled; overflow is: a
      conversion whose value is beyond the range of a double raises (from an
      [int]) or gives an infinity (from a string).
    - A Python [int] is a [Z].
    - [datetime.now()], the broker, the network thread and the clock are inputs
      of the functions that read them.
    - Log records are kept as structured events. *)

From Stdlib Require Import ZArith QArith Qminmax Lqa Lia List Ascii String DecimalString.
From stdpp Require Import base option list strings gmap.

Local Open Scope string_scope.
Local Open Scope Z_scope.
Local Open Scope list_scope.

(** ** Python strings *)

Module PyStr.

Definition code (c : ascii) : N := N_of_ascii c.

Definition in_range (lo hi : N) (c : ascii) : bool :=
  ((lo <=? code c) && (code c <=? hi))%N.

(** [str.isspace] on one character: TAB..CR, FS..US, SPACE, NEL, NBSP. *)
Definition isspace (c : ascii) : bool :=
  in_range 9 13 c || in_range 28 32 c || (code c =? 133)%N || (code c =? 160)%N.

(** Decimal digits [0-9] (the only [Nd] code points below U+0100). *)
Definition isdigit (c : ascii) : bool := in_range 48 57 c.

Definition digit_value (c : ascii) : Z := Z.of_N (code c) - 48.

(** [str.lower] on one character: A-Z and the Latin-1 capitals. *)
Definition lower_char (c : ascii) : ascii :=
  if in_range 65 90 c || in_range 192 214 c || in_range 216 222 c
  then ascii_of_N (code c + 32)
  else c.

Fixpoint lower (s : string) : string :=
  match s with
  | EmptyString => EmptyString
  | String c s' => String (lower_char c) (lower s')
  end.

Fixpoint lstrip (s : string) : string :=
  match s with
  | EmptyString => EmptyString
  | String c s' => if isspace c then lstrip s' else s
  end.

Fixpoint rstrip (s : string) : string :=
  match s with
  | EmptyString => EmptyString
  | String c s' =>
      match rstrip s' with
      | EmptyString => if isspace c then EmptyString else String c EmptyString
      | r => String c r
      end
  end.

(** [s.strip()] *)
Definition strip (s : string) : string := rstrip (lstrip s).

(** [sep in s] for a one-character [sep]. *)
Fixpoint contains (sep : ascii) (s : string) : bool :=
  match s with
  | EmptyString => false
  | String c s' => Ascii.eqb c sep || contains sep s'
  end.

(** [s.split(sep)] for a one-character [sep]: never empty. *)
Fixpoint split (sep : ascii) (s : string) : list string :=
  match s with
  | EmptyString => [EmptyString]
  | String c s' =>
      if Ascii.eqb c sep then EmptyString :: split sep s'
      else match split sep s' with
           | h :: t => String c h :: t
           | [] => [String c EmptyString]
           end
  end.

(** [s.split(sep, 1)] unpacked into two names; the caller has checked
    [sep in s], so the second component exists. *)
Fixpoint split1 (sep : ascii) (s : string) : string * string :=
  match s with
  | EmptyString => (EmptyString, EmptyString)
  | String c s' =>
      if Ascii.eqb c sep then (EmptyString, s')
      else let '(k, v) := split1 sep s' in (String c k, v)
  end.

(** [sep.join(l)] for a one-character [sep]. *)
Fixpoint join (sep : ascii) (l : list string) : string :=
  match l with
  | [] => EmptyString
  | [x] => x
  | x :: l' => x +:+ String sep (join sep l')
  end.

(** [x in l] for a list of strings. *)
Definition mem (x : string) (l : list string) : bool :=
  existsb (String.eqb x) l.

End PyStr.

(** ** Python numbers *)

Inductive pyfloat : Type :=
| FNum (q : Q)
| FInf (negative : bool)
| FNan.

(** A computation that returns or raises. *)
Inductive outcome (A : Type) : Type :=
| Returns (a : A)
| Raises.
Arguments Returns {A} a.
Arguments Raises {A}.

Module PyNum.
Import PyStr.

(** [str(n)] for an [int]. *)
Definition str_of_int (n : Z) : string := NilEmpty.string_of_int (Z.to_int n).

(** After one digit: further digits, each optionally preceded by one
    underscore ([digit (["_"] digit)*]).  Returns the value, the number of
    digits read and the unread rest. *)
Fixpoint digits_from (acc : Z) (n : nat) (s : string) : Z * nat * string :=
  match s with
  | String c s' =>
      if isdigit c then digits_from (10 * acc + digit_value c) (S n) s'
      else if Ascii.eqb c "_" then
        match s' with
        | String d s'' =>
            if isdigit d then digits_from (10 * acc + digit_value d) (S n) s''
            else (acc, n, s)
        | EmptyString => (acc, n, s)
        end
      else (acc, n, s)
  | EmptyString => (acc, n, s)
  end.

Definition digitpart (s : string) : option (Z * nat * string) :=
  match s with
  | String c s' => if isdigit c then Some (digits_from (digit_value c) 1 s') else None
  | EmptyString => None
  end.

(** An optional sign; [true] for "-". *)
Definition sign (s : string) : bool * string :=
  match s with
  | String c s' =>
      if Ascii.eqb c "-" then (true, s')
      else if Ascii.eqb c "+" then (false, s')
      else (false, s)
  | EmptyString => (false, s)
  end.

Definition apply_sign (neg : bool) (z : Z) : Z := if neg then - z else z.

(** [int(s)] for a string, base 10: [None] stands for [ValueError]. *)
Definition int_of_string (s : string) : option Z :=
  let '(neg, body) := sign (strip s) in
  match digitpart body with
  | Some (v, _, EmptyString) => Some (apply_sign neg v)
  | _ => None
  end.

Definition pow10 (e : Z) : Q :=
  if 0 <=? e then inject_Z (10 ^ e) else / inject_Z (10 ^ (- e)).

(** [[digitpart] "." digitpart | digitpart ["."]]: the mantissa, then what
    is left unread. *)
Definition number (s : string) : option (Q * string) :=
  match digitpart s with
  | Some (i, _, String c r) =>
      if Ascii.eqb c "." then
        match digitpart r with
        | Some (f, nf, r') =>
            Some ((inject_Z (i * 10 ^ Z.of_nat nf + f) * pow10 (- Z.of_nat nf))%Q, r')
        | None => Some (inject_Z i, r)
        end
      else Some (inject_Z i, String c r)
  | Some (i, _, EmptyString) => Some (inject_Z i, EmptyString)
  | None =>
      match s with
      | String c r =>
          if Ascii.eqb c "." then
            match digitpart r with
            | Some (f, nf, r') => Some ((inject_Z f * pow10 (- Z.of_nat nf))%Q, r')
            | None => None
            end
          else None
      | EmptyString => None
      end
  end.

(** [("e" | "E") [sign] digitpart], when present. *)
Definition exponent (s : string) : option (Z * string) :=
  match s with
  | String c r =>
      if Ascii.eqb (lower_char c) "e" then
        let '(neg, r') := sign r in
        match digitpart r' with
        | Some (e, _, r'') => Some (apply_sign neg e, r'')
        | None => None
        end
      else None
  | EmptyString => None
  end.

Definition floatnumber (s : string) : option Q :=
  match number s with
  | Some (m, EmptyString) => Some (Qred m)
  | Some (m, r) =>
      match exponent r with
      | Some (e, EmptyString) => Some (Qred (m * pow10 e))
      | _ => None
      end
  | None => None
  end.

(** The least magnitude that rounds beyond the largest double
    (2^1024 - 2^971, with ties to even): from it on, [float] of a string is
    an infinity and [float] of an [int] raises [OverflowError]. *)
Definition float_overflow : Z := 2 ^ 1024 - 2 ^ 970.

(** [float(s)] for a string: [None] stands for [ValueError]. *)
Definition float_of_string (s : string) : option pyfloat :=
  let '(neg, body) := sign (strip s) in
  let low := lower body in
  if mem low ["inf"; "infinity"] then Some (FInf neg)
  else if String.eqb low "nan" then Some FNan
  else match floatnumber body with
       | Some q =>
           if Qle_bool (inject_Z float_overflow) q then Some (FInf neg)
           else Some (FNum (if neg then Qred (- q) else q))
       | None => None
       end.

(** [float(n)] for an [int]: raises [OverflowError] beyond the range of a
    double. *)
Definition float_of_int (n : Z) : outcome pyfloat :=
  if Z.abs n <? float_overflow then Returns (FNum (inject_Z n)) else Raises.

End PyNum.

(** ** [datetime] and [datetime.strptime] *)

Record datetime : Type := mkDatetime {
  year : Z;
  month : Z;
  day : Z;
  hour : Z;
  minute : Z;
  second : Z;
  microsecond : Z
}.

Module DateTime.
Import PyStr PyNum.

Definition is_leap (y : Z) : bool :=
  (y mod 4 =? 0) && (negb (y mod 100 =? 0) || (y mod 400 =? 0)).

Definition days_in_month (y m : Z) : Z :=
  if m =? 2 then (if is_leap y then 29 else 28)
  else if (m =? 4) || (m =? 6) || (m =? 9) || (m =? 11) then 30
  else 31.

Definition between (lo hi x : Z) : bool := (lo <=? x) && (x <=? hi).

(** The range checks of the [datetime] constructor. *)
Definition valid (d : datetime) : bool :=
  between 1 9999 (year d) && between 1 12 (month d) &&
  between 1 (days_in_month (year d) (month d)) (day d) &&
  between 0 23 (hour d) && between 0 59 (minute d) && between 0 59 (second d) &&
  between 0 999999 (microsecond d).

(** [datetime(y, m, d, H, M, S)]: [None] stands for [ValueError]. *)
Definition make (y m d H M S : Z) : option datetime :=
  let dt := mkDatetime y m d H M S 0 in
  if valid dt then Some dt else None.

(** The directives the formats of [parse_rtc_time] use. *)
Inductive directive : Type := DirY | Dirm | Dird | DirH | DirM | DirS.

Definition directive_eqb (a b : directive) : bool :=
  match a, b with
  | DirY, DirY | Dirm, Dirm | Dird, Dird | DirH, DirH | DirM, DirM | DirS, DirS => true
  | _, _ => false
  end.

Definition directive_of (c : ascii) : option directive :=
  if Ascii.eqb c "Y" then Some DirY
  else if Ascii.eqb c "m" then Some Dirm
  else if Ascii.eqb c "d" then Some Dird
  else if Ascii.eqb c "H" then Some DirH
  else if Ascii.eqb c "M" then Some DirM
  else if Ascii.eqb c "S" then Some DirS
  else None.

(** A compiled format: literal characters (matched ignoring case), runs of
    whitespace (the regular expression [\s+]) and directives. *)
Inductive item : Type :=
| Lit (c : ascii)
| Ws
| Dir (d : directive).

Fixpoint compile (fmt : string) : option (list item) :=
  match fmt with
  | EmptyString => Some []
  | String c r =>
      if Ascii.eqb c "%" then
        match r with
        | String d r' =>
            match directive_of d, compile r' with
            | Some dir, Some l => Some (Dir dir :: l)
            | _, _ => None
            end
        | EmptyString => None
        end
      else if isspace c then
        match compile r with
        | Some (Ws :: l) => Some (Ws :: l)
        | Some l => Some (Ws :: l)
        | None => None
        end
      else
        match compile r with
        | Some l => Some (Lit c :: l)
        | None => None
        end
  end.

(** A character class [lo-hi], by code points. *)
Definition cls : Type := N * N.
Definition dg (lo hi : N) : cls := (48 + lo, 48 + hi)%N.
Definition any_digit : cls := dg 0 9.
Definition space : cls := (32, 32)%N.

(** The alternatives of each directive's regular expression, in order:
    [%Y] is [\d\d\d\d], [%m] is [1[0-2]|0[1-9]|[1-9]],
    [%d] is [3[0-1]|[1-2]\d|0[1-9]|[1-9]| [1-9]], [%H] is [2[0-3]|[0-1]\d|\d],
    [%M] is [[0-5]\d|\d], [%S] is [6[0-1]|[0-5]\d|\d]. *)
Definition alternatives (d : directive) : list (list cls) :=
  match d with
  | DirY => [[any_digit; any_digit; any_digit; any_digit]]
  | Dirm => [[dg 1 1; dg 0 2]; [dg 0 0; dg 1 9]; [dg 1 9]]
  | Dird => [[dg 3 3; dg 0 1]; [dg 1 2; any_digit]; [dg 0 0; dg 1 9]; [dg 1 9];
             [space; dg 1 9]]
  | DirH => [[dg 2 2; dg 0 3]; [dg 0 1; any_digit]; [any_digit]]
  | DirM => [[dg 0 5; any_digit]; [any_digit]]
  | DirS => [[dg 6 6; dg 0 1]; [dg 0 5; any_digit]; [any_digit]]
  end.

(** Matches a sequence of classes at the head of [s]: the text matched and
    the rest. *)
Fixpoint match_classes (p : list cls) (s : string) : option (string * string) :=
  match p with
  | [] => Some (EmptyString, s)
  | (lo, hi) :: p' =>
      match s with
      | String c s' =>
          if in_range lo hi c then
            match match_classes p' s' with
            | Some (m, r) => Some (String c m, r)
            | None => None
            end
          else None
      | EmptyString => None
      end
  end.

(** All the ways a directive matches at the head of [s], in the order a
    backtracking matcher tries them; the text is read with [int]. *)
Definition match_directive (d : directive) (s : string) : list (Z * string) :=
  omap (fun p =>
          match match_classes p s with
          | Some (m, r) =>
              match int_of_string m with
              | Some v => Some (v, r)
              | None => None
              end
          | None => None
          end) (alternatives d).

(** What is left after 1, 2, ... leading whitespace characters. *)
Fixpoint ws_rests (s : string) : list string :=
  match s with
  | String c s' => if isspace c then s' :: ws_rests s' else []
  | EmptyString => []
  end.

(** All matches of a compiled format at the head of [s], in backtracking
    order ([\s+] is greedy): the directive values found and the unread rest. *)
Fixpoint match_format (items : list item) (s : string)
  : list (list (directive * Z) * string) :=
  match items with
  | [] => [([], s)]
  | Lit c :: items' =>
      match s with
      | String d s' =>
          if Ascii.eqb (lower_char d) (lower_char c) then match_format items' s' else []
      | EmptyString => []
      end
  | Ws :: items' => flat_map (match_format items') (rev (ws_rests s))
  | Dir d :: items' =>
      flat_map (fun vr : Z * string =>
                  map (fun m : list (directive * Z) * string => ((d, vr.1) :: m.1, m.2))
                      (match_format items' vr.2))
               (match_directive d s)
  end.

Fixpoint field (d : directive) (dflt : Z) (vals : list (directive * Z)) : Z :=
  match vals with
  | [] => dflt
  | (d', v) :: vals' => if directive_eqb d d' then v else field d dflt vals'
  end.

(** [datetime.strptime(s, fmt)]: the first match of the format's regular
    expression must consume all of [s], and the fields must make a valid
    [datetime]; [None] stands for [ValueError]. *)
Definition strptime (s fmt : string) : option datetime :=
  match compile fmt with
  | Some items =>
      match match_format items s with
      | (vals, EmptyString) :: _ =>
          make (field DirY 1900 vals) (field Dirm 1 vals) (field Dird 1 vals)
               (field DirH 0 vals) (field DirM 0 vals) (field DirS 0 vals)
      | _ => None
      end
  | None => None
  end.

(** [str(n).zfill(w)] for a non-negative [n]. *)
Definition zfill (w : nat) (n : Z) : string :=
  let s := str_of_int n in
  String.concat EmptyString (replicate (w - String.length s) "0") +:+ s.

(** [d.isoformat()] *)
Definition isoformat (d : datetime) : string :=
  zfill 4 (year d) +:+ "-" +:+ zfill 2 (month d) +:+ "-" +:+ zfill 2 (day d) +:+ "T" +:+
  zfill 2 (hour d) +:+ ":" +:+ zfill 2 (minute d) +:+ ":" +:+ zfill 2 (second d) +:+
  (if microsecond d =? 0 then "" else "." +:+ zfill 6 (microsecond d)).

End DateTime.

(** ** mqtt_handler.py *)

(** The values the parser stores in its dictionaries. *)
Inductive pyvalue : Type :=
| VFloat (f : pyfloat)
| VInt (n : Z)
| VBool (b : bool)
| VStr (s : string).

(** The dataclass [JemuranData]; a dataclass does not coerce its fields, so
    the four sensor fields hold whatever value the parser hands over. *)
Record JemuranData : Type := mkJemuranData {
  temperature : pyvalue;
  humidity : pyvalue;
  light : pyvalue;
  rain : pyvalue;
  last_update : datetime;
  current_hour : Z
}.

(** The attributes of [MQTTClient] that its methods read and write. *)
Record MQTTClient : Type := mkMQTTClient {
  latest_data : option JemuranData;
  is_connected : bool;
  servo_status : option string
}.

(** An inbound message: [payload] is [msg.payload.decode('utf-8')], with
    [None] for bytes that raise [UnicodeDecodeError]. *)
Record MQTTMessage : Type := mkMessage {
  topic : string;
  payload : option string
}.

(** Log records, one constructor per [logger] call that the model keeps. *)
Inductive log_record : Type :=
| WarnInvalidValue (key value : string)
| WarnInvalidLight (value : string)
| WarnInvalidRtc (time_str : string)
| WarnNoRtc
| InfoSensorUpdated
| InfoServoStatus (payload : string)
| InfoLatestServoStatus (payload : string)
| ErrorNotUtf8
| ErrorConnect
| InfoConnected
| ErrorConnectionFailed (rc : Z)
| InfoDisconnected
| WarnUnexpectedDisconnect (rc : Z)
| ErrorReconnectFailed
| ErrorInvalidCommand (msg : string)
| InfoAttempt (attempt max_retries : nat) (action : string)
| WarnNotConnected
| ErrorReconnect
| InfoCommandSent (action : string)
| InfoConfirmation (action : string)
| WarnNoConfirmation (action : string)
| ErrorSendFailed (rc : Z)
| ErrorException
| ErrorGiveUp (msg : string).

(** What a method does to the outside, in order. *)
Inductive effect : Type :=
| Log (r : log_record)
| BrokerConnect (broker : string) (port : Z)
| Subscribe (topic : string)
| Publish (topic payload : string) (qos : Z) (retain : bool).

Module Mqtt.
Import PyStr PyNum DateTime.

Definition broker : string := "212.85.27.126".
Definition port : Z := 1883.

(** [MQTTClient.__init__] *)
Definition init : MQTTClient :=
  {| latest_data := None; is_connected := false; servo_status := None |}.

Definition set_latest_data (self : MQTTClient) (d : JemuranData) : MQTTClient :=
  {| latest_data := Some d; is_connected := is_connected self;
     servo_status := servo_status self |}.

Definition set_is_connected (self : MQTTClient) (b : bool) : MQTTClient :=
  {| latest_data := latest_data self; is_connected := b;
     servo_status := servo_status self |}.

Definition set_servo_status (self : MQTTClient) (s : string) : MQTTClient :=
  {| latest_data := latest_data self; is_connected := is_connected self;
     servo_status := Some s |}.

(** *** parse_rtc_time *)

Definition formats_to_try : list string :=
  [ "%Y-%m-%d %H:%M:%S";
    "%d/%m/%Y %H:%M:%S";
    "%H:%M:%S %d-%m-%Y";
    "%Y-%m-%dT%H:%M:%S" ].

(** The [for fmt in formats_to_try] loop: the first format that does not
    raise [ValueError] returns. *)
Fixpoint try_formats (time_str : string) (fmts : list string) : option datetime :=
  match fmts with
  | [] => None
  | fmt :: fmts' =>
      match strptime time_str fmt with
      | Some d => Some d
      | None => try_formats time_str fmts'
      end
  end.

Definition parse_rtc_time (now : datetime) (time_str : string)
  : datetime * list effect :=
  match try_formats time_str formats_to_try with
  | Some d => (d, [])
  | None => (now, [Log (WarnInvalidRtc time_str)])
  end.

(** *** process_sensor_data *)

(** The locals of the parsing loop. *)
Record parsed : Type := mkParsed {
  data_dict : gmap string pyvalue;
  rtc_time_str : option string;
  warnings : list effect
}.

Definition float_keys : list string :=
  ["suhu"; "kelembapan"; "heat_index"; "dew_point"].

Definition no_rain_words : list string := ["tidak hujan"; "false"; "0"].

Definition store (key : string) (v : pyvalue) (acc : parsed) : parsed :=
  {| data_dict := <[key := v]> (data_dict acc);
     rtc_time_str := rtc_time_str acc;
     warnings := warnings acc |}.

Definition warn (r : log_record) (acc : parsed) : parsed :=
  {| data_dict := data_dict acc;
     rtc_time_str := rtc_time_str acc;
     warnings := warnings acc ++ [Log r] |}.

(** One iteration of [for pair in payload.split(',')]. *)
Definition process_pair (acc : parsed) (pair : string) : parsed :=
  if contains ":" pair then
    let '(key, value) := split1 ":" pair in
    let key := lower (strip key) in
    let value := strip value in
    if String.eqb key "waktu" then
      {| data_dict := data_dict acc; rtc_time_str := Some value;
         warnings := warnings acc |}
    else if mem key float_keys then
      match float_of_string value with
      | Some f => store key (VFloat f) acc
      | None => warn (WarnInvalidValue key value) acc
      end
    else if String.eqb key "cahaya_analog" then
      match int_of_string value with
      | Some n => store key (VInt n) acc
      | None => warn (WarnInvalidLight value) acc
      end
    else if String.eqb key "hujan" then
      store key (VBool (negb (mem (lower value) no_rain_words))) acc
    else store key (VStr value) acc
  else acc.

(** The loop over the tokens, from empty locals. *)
Definition parse_tokens (tokens : list string) : parsed :=
  fold_left process_pair tokens
            {| data_dict := ∅; rtc_time_str := None; warnings := [] |}.

Definition parse_pairs (payload : string) : parsed :=
  parse_tokens (split "," payload).

Definition field_mapping : gmap string string :=
  list_to_map [ ("suhu", "temperature"); ("kelembapan", "humidity");
                ("cahaya_analog", "light"); ("hujan", "rain") ].

(** [{field_mapping.get(k, k): v for k, v in data_dict.items() if k in field_mapping}] *)
Definition mapped_data (data_dict : gmap string pyvalue) : gmap string pyvalue :=
  list_to_map
    (omap (fun kv : string * pyvalue =>
             match field_mapping !! kv.1 with
             | Some k' => Some (k', kv.2)
             | None => None
             end)
          (map_to_list data_dict)).

(** [d.get(k, dflt)] *)
Definition get (d : gmap string pyvalue) (k : string) (dflt : pyvalue) : pyvalue :=
  match d !! k with
  | Some v => v
  | None => dflt
  end.

(** The timestamp of the record: the parsed [waktu] value, or the clock. *)
Definition timestamp (now : datetime) (rtc_time_str : option string)
  : datetime * list effect :=
  match rtc_time_str with
  | Some (String c s) => parse_rtc_time now (String c s)
  | _ => (now, [Log WarnNoRtc])
  end.

(** The record built after the loop, with the warnings of the timestamp. *)
Definition make_record (now : datetime) (p : parsed) : JemuranData * list effect :=
  let '(last_update, w) := timestamp now (rtc_time_str p) in
  let current_hour := hour last_update in
  let mapped := mapped_data (data_dict p) in
  ({| temperature := get mapped "temperature" (VFloat (FNum 0));
      humidity := get mapped "humidity" (VFloat (FNum 0));
      light := get mapped "light" (VInt 0);
      rain := get mapped "rain" (VBool false);
      last_update := last_update;
      current_hour := current_hour |}, w).

Definition process_sensor_data (now : datetime) (payload : string) (self : MQTTClient)
  : MQTTClient * list effect :=
  let p := parse_pairs payload in
  let '(record, w) := make_record now p in
  (set_latest_data self record, warnings p ++ w ++ [Log InfoSensorUpdated]).

(** *** Callbacks of the network thread *)

(** [connect]: [raises] tells whether [self.client.connect] raises. *)
Definition connect (raises : bool) (self : MQTTClient)
  : outcome unit * MQTTClient * list effect :=
  if negb (is_connected self) then
    if raises then
      (Raises, set_is_connected self false,
       [BrokerConnect broker port; Log ErrorConnect])
    else
      (Returns tt, set_is_connected self true, [BrokerConnect broker port])
  else (Returns tt, self, []).

Definition on_connect (rc : Z) (self : MQTTClient) : MQTTClient * list effect :=
  if rc =? 0 then
    (set_is_connected self true,
     [Log InfoConnected; Subscribe "jemuran/data"; Subscribe "jemuran/control";
      Subscribe "jemuran/status"])
  else (set_is_connected self false, [Log (ErrorConnectionFailed rc)]).

Definition on_disconnect (rc : Z) (connect_raises : bool) (self : MQTTClient)
  : MQTTClient * list effect :=
  let self := set_is_connected self false in
  if rc =? 0 then (self, [Log InfoDisconnected])
  else
    match connect connect_raises self with
    | (Returns _, self', t) => (self', Log (WarnUnexpectedDisconnect rc) :: t)
    | (Raises, self', t) =>
        (self', Log (WarnUnexpectedDisconnect rc) :: t ++ [Log ErrorReconnectFailed])
    end.

Definition on_message (now : datetime) (msg : MQTTMessage) (self : MQTTClient)
  : MQTTClient * list effect :=
  match payload msg with
  | None => (self, [Log ErrorNotUtf8])
  | Some payload =>
      if String.eqb (topic msg) "jemuran/control" then
        (set_servo_status self payload, [Log (InfoServoStatus payload)])
      else if String.eqb (topic msg) "jemuran/status" then
        (set_servo_status self payload, [Log (InfoLatestServoStatus payload)])
      else if String.eqb (topic msg) "jemuran/data" then
        process_sensor_data now payload self
      else (self, [])
  end.

(** *** get_formatted_data *)

(** The dictionary built for the API response. *)
Record api_response : Type := mkApiResponse {
  api_temperature : pyvalue;
  api_humidity : pyvalue;
  api_light : pyvalue;
  api_rain : pyvalue;
  api_last_update : string
}.

(** The dictionary built for the recommendation system. *)
Record recommendation_input : Type := mkRecommendationInput {
  in_temperature : pyvalue;
  in_humidity : pyvalue;
  in_light : pyfloat;
  in_rain : pyfloat;
  in_time : pyfloat
}.

(** [float(v)]: raises on a string that is not a number and on an [int]
    beyond the range of a double. *)
Definition py_float (v : pyvalue) : outcome pyfloat :=
  match v with
  | VFloat f => Returns f
  | VInt n => float_of_int n
  | VBool b => float_of_int (if b then 1 else 0)
  | VStr s =>
      match float_of_string s with
      | Some f => Returns f
      | None => Raises
      end
  end.

(** Truth value of [v] in a condition. *)
Definition truthy (v : pyvalue) : bool :=
  match v with
  | VFloat (FNum q) => negb (Qeq_bool q 0)
  | VFloat _ => true
  | VInt n => negb (n =? 0)
  | VBool b => b
  | VStr s => negb (String.eqb s EmptyString)
  end.

Definition get_formatted_data (self : MQTTClient)
  : outcome (option api_response * option recommendation_input) :=
  match latest_data self with
  | None => Returns (None, None)
  | Some d =>
      let api :=
        {| api_temperature := temperature d;
           api_humidity := humidity d;
           api_light := light d;
           api_rain := rain d;
           api_last_update := isoformat (last_update d) |} in
      match py_float (light d) with
      | Returns l =>
          match float_of_int (current_hour d) with
          | Returns t =>
              let input :=
                {| in_temperature := temperature d;
                   in_humidity := humidity d;
                   in_light := l;
                   in_rain := if negb (truthy (rain d)) then FNum 0 else FNum 1;
                   in_time := t |} in
              Returns (Some api, Some input)
          | Raises => Raises
          end
      | Raises => Raises
      end
  end.

(** *** publish_control *)

(** What the network thread does while the caller sleeps. *)
Inductive callback : Type :=
| OnMessage (now : datetime) (msg : MQTTMessage)
| OnConnect (rc : Z)
| OnDisconnect (rc : Z) (connect_raises : bool).

Definition dispatch (cb : callback) (self : MQTTClient) : MQTTClient * list effect :=
  match cb with
  | OnMessage now msg => on_message now msg self
  | OnConnect rc => on_connect rc self
  | OnDisconnect rc raises => on_disconnect rc raises self
  end.

Fixpoint run_callbacks (cbs : list callback) (self : MQTTClient)
  : MQTTClient * list effect :=
  match cbs with
  | [] => (self, [])
  | cb :: cbs' =>
      let '(self1, t1) := dispatch cb self in
      let '(self2, t2) := run_callbacks cbs' self1 in
      (self2, t1 ++ t2)
  end.

(** [self.client.publish(...)]: the [rc] of its result, or an exception. *)
Inductive publish_result : Type :=
| PublishRc (rc : Z)
| PublishRaises.

(** What surrounds one attempt of [publish_control]: the callbacks that run
    before the attempt reads [is_connected], whether the broker connection
    raises, the callbacks that run during [connect]'s sleep, the result of
    the publish, and for each iteration of the confirmation loop (as many as
    the clock allows before the deadline) the callbacks that run before its
    read of [servo_status]. *)
Record attempt_env : Type := mkAttemptEnv {
  before_attempt : list callback;
  connect_raises : bool;
  during_connect : list callback;
  publish : publish_result;
  window : list (list callback)
}.

Definition MQTT_ERR_SUCCESS : Z := 0.

(** The confirmation loop [while time.time() < timeout]. *)
Fixpoint wait_confirmation (action : string) (window : list (list callback))
  (self : MQTTClient) : bool * MQTTClient * list effect :=
  match window with
  | [] => (false, self, [])
  | cbs :: window' =>
      let '(self1, t1) := run_callbacks cbs self in
      if bool_decide (servo_status self1 = Some action) then
        (true, self1, t1 ++ [Log (InfoConfirmation action)])
      else
        let '(ok, self2, t2) := wait_confirmation action window' self1 in
        (ok, self2, t1 ++ t2)
  end.

(** The publish and what follows it in one attempt; [true] when the
    attempt returns success. *)
Definition publish_and_wait (action : string) (env : attempt_env) (self : MQTTClient)
  : bool * MQTTClient * list effect :=
  match publish env with
  | PublishRaises =>
      (false, self,
       [Publish "jemuran/control" action 1 false; Log ErrorException])
  | PublishRc rc =>
      if rc =? MQTT_ERR_SUCCESS then
        let '(ok, self1, t) := wait_confirmation action (window env) self in
        (ok, self1,
         Publish "jemuran/control" action 1 false :: Log (InfoCommandSent action) :: t
         ++ (if ok then [] else [Log (WarnNoConfirmation action)]))
      else
        (false, self,
         [Publish "jemuran/control" action 1 false; Log (ErrorSendFailed rc)])
  end.

(** The part of an attempt before the publish: [true] when the attempt
    gets to [self.client.publish]. *)
Definition ensure_connected (env : attempt_env) (self : MQTTClient)
  : bool * MQTTClient * list effect :=
  if negb (is_connected self) then
    match connect (connect_raises env) self with
    | (Raises, self1, t1) => (false, self1, Log WarnNotConnected :: t1 ++ [Log ErrorException])
    | (Returns _, self1, t1) =>
        let '(self2, t2) := run_callbacks (during_connect env) self1 in
        if negb (is_connected self2) then
          (false, self2, Log WarnNotConnected :: t1 ++ t2 ++ [Log ErrorReconnect])
        else (true, self2, Log WarnNotConnected :: t1 ++ t2)
    end
  else (true, self, []).

(** The body of the [for attempt in range(1, max_retries + 1)] loop;
    [true] when the attempt returns success. *)
Definition attempt_body (action : string) (attempt max_retries : nat)
  (env : attempt_env) (self : MQTTClient) : bool * MQTTClient * list effect :=
  let '(self0, t0) := run_callbacks (before_attempt env) self in
  let t0 := t0 ++ [Log (InfoAttempt attempt max_retries action)] in
  let '(ready, self1, t1) := ensure_connected env self0 in
  if ready then
    let '(ok, self2, t2) := publish_and_wait action env self1 in
    (ok, self2, t0 ++ t1 ++ t2)
  else (false, self1, t0 ++ t1).

(** The loop from [attempt] on, with [remaining] iterations left; [true]
    when some attempt returned success. *)
Fixpoint attempts (action : string) (max_retries remaining attempt : nat)
  (envs : nat -> attempt_env) (self : MQTTClient) : bool * MQTTClient * list effect :=
  match remaining with
  | O => (false, self, [])
  | S remaining' =>
      let '(ok, self1, t1) := attempt_body action attempt max_retries (envs attempt) self in
      if ok then (true, self1, t1)
      else
        let '(ok', self2, t2) :=
          attempts action max_retries remaining' (S attempt) envs self1 in
        (ok', self2, t1 ++ t2)
  end.

Definition publish_control (action : string) (max_retries : nat)
  (envs : nat -> attempt_env) (self : MQTTClient)
  : (bool * string) * MQTTClient * list effect :=
  if negb (mem action ["buka"; "tutup"]) then
    let error_msg := "Invalid command: " +:+ action +:+ " (must be 'buka' or 'tutup')" in
    ((false, error_msg), self, [Log (ErrorInvalidCommand error_msg)])
  else
    let '(ok, self1, t) := attempts action max_retries max_retries 1 envs self in
    if ok then ((true, "Servo successfully " +:+ action), self1, t)
    else
      let error_msg :=
        "Failed to send command " +:+ action +:+ " after " +:+
        str_of_int (Z.of_nat max_retries) +:+ " attempts" in
      ((false, error_msg), self1, t ++ [Log (ErrorGiveUp error_msg)]).

(** [publish_control] with the default [max_retries = 3]. *)
Definition send_control (action : string) : (nat -> attempt_env) -> MQTTClient ->
  (bool * string) * MQTTClient * list effect :=
  publish_control action 3.

(** [get_servo_status] *)
Definition get_servo_status (self : MQTTClient) : option string := servo_status self.

End Mqtt.

(** ** fuzzy_logic.py *)

Module Fuzzy.
Import PyStr PyNum.
Local Open Scope Q_scope.

(** [np.arange(lo, hi, 1)] *)
Definition arange (lo hi : Z) : list Q := map inject_Z (seqZ lo (hi - lo)).

Definition Qlt_bool (x y : Q) : bool := negb (Qle_bool y x).

(** [fuzz.trimf(x, [a, b, c])] at one point of [x]. *)
Definition trimf_at (a b c x : Q) : Q :=
  if Qeq_bool x b then 1
  else if negb (Qeq_bool a b) && Qlt_bool a x && Qlt_bool x b then (x - a) / (b - a)
  else if negb (Qeq_bool b c) && Qlt_bool b x && Qlt_bool x c then (c - x) / (c - b)
  else 0.

(** [fuzz.trapmf(x, [a, b, c, d])] at one point of [x]: ones, then
    [trimf(a, b, b)] where [x <= b], then [trimf(c, c, d)] where [x >= c],
    then zero where [x < a], then zero where [x > d]. *)
Definition trapmf_at (a b c d x : Q) : Q :=
  if Qlt_bool d x then 0
  else if Qlt_bool x a then 0
  else if Qle_bool c x then trimf_at c c d x
  else if Qle_bool x b then trimf_at a b b x
  else 1.

Definition trimf (x : list Q) (a b c : Q) : list Q := map (trimf_at a b c) x.
Definition trapmf (x : list Q) (a b c d : Q) : list Q := map (trapmf_at a b c d) x.

(** The antecedents and the consequent, with their universes. *)
Inductive variable : Type := Temperature | Humidity | Light | Rain | TimeOfDay.

Definition universe (v : variable) : list Q :=
  match v with
  | Temperature => arange 0 50
  | Humidity => arange 0 100
  | Light => arange 0 4096
  | Rain => arange 0 2
  | TimeOfDay => arange 0 24
  end.

Definition recommendation_universe : list Q := arange 0 101.

(** The fuzzy sets of the antecedents: [self.<variable>[<label>]]. *)
Inductive term : Type :=
| temperature_cold | temperature_normal | temperature_hot
| humidity_dry | humidity_normal | humidity_humid
| light_dark | light_medium | light_bright
| rain_no_rain | rain_rain
| time_morning | time_afternoon | time_evening | time_night.

Definition variable_of (t : term) : variable :=
  match t with
  | temperature_cold | temperature_normal | temperature_hot => Temperature
  | humidity_dry | humidity_normal | humidity_humid => Humidity
  | light_dark | light_medium | light_bright => Light
  | rain_no_rain | rain_rain => Rain
  | time_morning | time_afternoon | time_evening | time_night => TimeOfDay
  end.

(** [_setup_membership_functions]: the sampled membership function of
    each set. *)
Definition mf (t : term) : list Q :=
  let u := universe (variable_of t) in
  match t with
  | temperature_cold => trapmf u 0 0 15 22
  | temperature_normal => trimf u 20 25 30
  | temperature_hot => trapmf u 28 32 50 50
  | humidity_dry => trapmf u 0 0 30 50
  | humidity_normal => trimf u 40 60 80
  | humidity_humid => trapmf u 70 80 100 100
  | light_dark => trapmf u 2500 3000 4096 4096
  | light_medium => trimf u 1000 2000 3000
  | light_bright => trapmf u 0 0 1500 2000
  | rain_no_rain => trimf u 0 0 (1 # 2)
  | rain_rain => trimf u (1 # 2) 1 1
  | time_morning => trapmf u 5 7 10 12
  | time_afternoon => trapmf u 10 12 15 17
  | time_evening => trapmf u 15 17 19 21
  | time_night => trapmf u 19 21 23 24
  end.

(** The fuzzy sets of the consequent [recommendation]. *)
Inductive output_set : Type := bad | fair | good.

Definition output_set_eqb (a b : output_set) : bool :=
  match a, b with
  | bad, bad | fair, fair | good, good => true
  | _, _ => false
  end.

Definition output_mf (o : output_set) : list Q :=
  match o with
  | bad => trimf recommendation_universe 0 0 30
  | fair => trimf recommendation_universe 20 50 80
  | good => trimf recommendation_universe 70 100 100
  end.

(** Antecedent expressions: Python's [&] and [|] over sets. *)
Inductive antecedent : Type :=
| Is (t : term)
| And (a b : antecedent)
| Or (a b : antecedent).

Record rule : Type := Rule {
  rule_antecedent : antecedent;
  rule_consequent : output_set
}.

Declare Scope rule_scope.
Delimit Scope rule_scope with rule.
Notation "a & b" := (And a b) (at level 40, left associativity) : rule_scope.
Notation "a || b" := (Or a b) (at level 50, left associativity) : rule_scope.
Coercion Is : term >-> antecedent.

(** [_setup_rules] *)
Definition rules : list rule :=
  [ Rule rain_rain bad;
    Rule (rain_no_rain & time_night)%rule bad;
    Rule (rain_no_rain & time_afternoon & temperature_normal & humidity_normal &
          light_bright)%rule good;
    Rule (rain_no_rain & (time_morning || time_evening) &
          (temperature_normal || temperature_hot) & humidity_normal)%rule fair;
    Rule (rain_no_rain & (light_medium || humidity_humid))%rule fair;
    Rule (temperature_cold & humidity_humid)%rule bad;
    Rule rain_no_rain fair ].

(** The crisp inputs set on the simulation. *)
Record inputs : Type := mkInputs {
  in_temperature : Q;
  in_humidity : Q;
  in_light : Q;
  in_rain : Q;
  in_time : Q
}.

Definition input_of (i : inputs) (v : variable) : Q :=
  match v with
  | Temperature => in_temperature i
  | Humidity => in_humidity i
  | Light => in_light i
  | Rain => in_rain i
  | TimeOfDay => in_time i
  end.

(** *** The inference engine

    [self.simulation.compute()] runs in the fuzzy-control library, which is
    not part of the sources; the definitions of this part follow steps 2 to 5
    of section 4.3 of the specification, over the universes, membership
    functions and rules that the code above sets up. *)

(** What [compute] leaves behind: a crisp output, no output for
    [recommendation], or an exception. *)
Inductive compute_outcome : Type :=
| Output (q : Q)
| NoOutput
| ComputeValueError (detail : string)
| ComputeError.

(** The value at [x] of the polygon through the samples, to the right of
    the sample [(x0, y0)]. *)
Fixpoint interp_from (x0 y0 : Q) (xs ys : list Q) (x : Q) : Q :=
  match xs, ys with
  | x1 :: xs', y1 :: ys' =>
      if Qle_bool x x1 then y0 + (x - x0) * (y1 - y0) / (x1 - x0)
      else interp_from x1 y1 xs' ys' x
  | _, _ => if Qeq_bool x x0 then y0 else 0
  end.

(** A sampled membership function read at a crisp value: linear between
    samples, zero outside the universe. *)
Definition interp_membership (xs ys : list Q) (x : Q) : Q :=
  match xs, ys with
  | x0 :: xs', y0 :: ys' => if Qlt_bool x x0 then 0 else interp_from x0 y0 xs' ys' x
  | _, _ => 0
  end.

Definition universe_min (v : variable) : Q := hd 0 (universe v).
Definition universe_max (v : variable) : Q := List.last (universe v) 0.

Definition clip (lo hi x : Q) : Q := Qmin hi (Qmax lo x).

(** Modelled from the spec: step 2, fuzzification.  A crisp input is mapped
    to its degree of membership in a set of its variable; an input beyond
    the sampled universe is read at the nearest end of the universe. *)
Definition fuzzify (i : inputs) (t : term) : Q :=
  let v := variable_of t in
  interp_membership (universe v) (mf t) (clip (universe_min v) (universe_max v) (input_of i v)).

(** Modelled from the spec: step 3, rule evaluation.  Fuzzy AND is the
    minimum, fuzzy OR the maximum. *)
Fixpoint strength (m : term -> Q) (a : antecedent) : Q :=
  match a with
  | Is t => m t
  | And a b => Qmin (strength m a) (strength m b)
  | Or a b => Qmax (strength m a) (strength m b)
  end.

Definition firing_strength (i : inputs) (r : rule) : Q :=
  strength (fuzzify i) (rule_antecedent r).

(** Modelled from the spec: step 4, aggregation.  The maximum firing
    strength among the rules whose consequent is the set [o] (kept in lowest
    terms). *)
Definition activation (i : inputs) (o : output_set) : Q :=
  Qred (fold_right Qmax 0
          (map (firing_strength i)
               (List.filter (fun r => output_set_eqb (rule_consequent r) o) rules))).

Definition output_sets : list output_set := [bad; fair; good].

(** The aggregated output membership surface at [x]: each set clipped at
    its activation, and the maximum over the sets. *)
Definition surface (cut : output_set -> Q) (x : Q) : Q :=
  fold_left (fun acc o => Qmax acc (Qmin (cut o) (interp_membership recommendation_universe (output_mf o) x)))
            output_sets 0.

(** Where the polygon through the samples meets the level [level]. *)
Fixpoint crossings (level : Q) (xs ys : list Q) : list Q :=
  match xs, ys with
  | x1 :: xs', y1 :: ys' =>
      match xs', ys' with
      | x2 :: _, y2 :: _ =>
          (if negb (Bool.eqb (Qle_bool level y1) (Qle_bool level y2))
           then [Qred (x1 + (level - y1) * (x2 - x1) / (y2 - y1))] else [])
          ++ crossings level xs' ys'
      | _, _ => []
      end
  | _, _ => []
  end.

(** Insertion into a sorted list without repetition. *)
Fixpoint insert_point (x : Q) (l : list Q) : list Q :=
  match l with
  | [] => [x]
  | y :: l' =>
      match x ?= y with
      | Lt => x :: y :: l'
      | Eq => y :: l'
      | Gt => y :: insert_point x l'
      end
  end.

(** The output universe refined by the points where a membership function
    meets an activation level: between two consecutive points the surface
    is linear. *)
Definition refined_universe (cut : output_set -> Q) : list Q :=
  fold_right insert_point []
    (recommendation_universe ++
     flat_map (fun o => flat_map (fun o' => crossings (cut o') recommendation_universe (output_mf o))
                                 output_sets)
              output_sets).

(** Sum of (centre times area) and sum of areas of the trapezia under the
    polygon through [(x1, y1)] and the points of [pts]. *)
Fixpoint moment_and_area (x1 y1 : Q) (pts : list (Q * Q)) : Q * Q :=
  match pts with
  | [] => (0, 0)
  | (x2, y2) :: pts' =>
      let '(m, a) := moment_and_area x2 y2 pts' in
      if Qeq_bool (y1 + y2) 0 then (m, a)
      else
        let centre := x1 + (x2 - x1) * (y1 + 2 * y2) / (3 * (y1 + y2)) in
        let area := (x2 - x1) * (y1 + y2) / 2 in
        (centre * area + m, area + a)
  end.

(** Modelled from the spec: step 5, defuzzification.  The centroid of the
    aggregated output membership surface over the output universe. *)
Definition centroid (cut : output_set -> Q) : Q :=
  match map (fun x => (x, surface cut x)) (refined_universe cut) with
  | [] => 0
  | (x1, y1) :: pts =>
      let '(m, a) := moment_and_area x1 y1 pts in
      Qred (m / a)
  end.

(** Modelled from the spec: [self.simulation.compute()] on the inputs set by
    [evaluate], steps 2 to 5 of section 4.3.  When no rule has a nonzero
    firing strength there is no output for [recommendation]. *)
Definition compute (i : inputs) : compute_outcome :=
  if forallb (fun r => Qeq_bool (firing_strength i r) 0) rules then NoOutput
  else
    let cut_bad := activation i bad in
    let cut_fair := activation i fair in
    let cut_good := activation i good in
    Output (centroid (fun o => match o with
                               | bad => cut_bad
                               | fair => cut_fair
                               | good => cut_good
                               end)).

(** *** evaluate *)

Record input_parameters : Type := mkInputParameters {
  p_temperature : pyfloat;
  p_humidity : pyfloat;
  p_light : Z;
  p_rain : Z;
  p_time : Z
}.

(** The dictionary [evaluate] returns. *)
Record result : Type := mkResult {
  recommendation : string;
  confidence : Q;
  status : string;
  rules_activated : list string;
  parameters : input_parameters
}.

Record HTTPException : Type := mkHTTPException {
  status_code : Z;
  detail : string
}.

Inductive response : Type :=
| Ok (r : result)
| Error (e : HTTPException).

Inductive log_record : Type :=
| InfoEvaluating (temperature humidity : pyfloat) (light rain time : Z)
| WarnLightClamped (light : Z)
| WarnRainConverted (rain : Z)
| WarnTimeNormalized (time : Z)
| WarnNoRulesActivated
| WarnInputValidation (detail : string)
| ErrorFuzzyEvaluation.

(** [lo <= x <= hi] for a float [x] and integer bounds. *)
Definition float_between (lo hi : Z) (x : pyfloat) : bool :=
  match x with
  | FNum q => Qle_bool (inject_Z lo) q && Qle_bool q (inject_Z hi)
  | FInf _ | FNan => false
  end.

(** [float(x)] of a float that passed [float_between]. *)
Definition finite (x : pyfloat) : Q :=
  match x with
  | FNum q => q
  | FInf _ | FNan => 0
  end.

(** The character U+00B0 of the temperature message. *)
Definition degree_sign : ascii := ascii_of_N 176.

Section Evaluate.

(** The simulation of the control system: what [compute] does with the
    five inputs. *)
Variable simulation : inputs -> compute_outcome.

Definition evaluate (temperature humidity : pyfloat) (light rain time : Z)
  : response * list log_record :=
  let log0 := [InfoEvaluating temperature humidity light rain time] in
  if negb (float_between 0 50 temperature) then
    let detail := "Temperature must be between 0-50" +:+ String degree_sign "C" in
    (Error (mkHTTPException 400 detail), log0 ++ [WarnInputValidation detail])
  else if negb (float_between 0 100 humidity) then
    let detail := "Humidity must be between 0-100%" in
    (Error (mkHTTPException 400 detail), log0 ++ [WarnInputValidation detail])
  else
    let '(light, log1) :=
      if negb ((0 <=? light)%Z && (light <=? 4096)%Z)
      then let l := Z.max 0 (Z.min light 4096) in (l, [WarnLightClamped l])
      else (light, []) in
    let '(rain, log2) :=
      if negb ((rain =? 0)%Z || (rain =? 1)%Z)
      then let r := (if (rain =? 0)%Z then 0 else 1)%Z in (r, [WarnRainConverted r])
      else (rain, []) in
    let '(time, log3) :=
      if negb ((0 <=? time)%Z && (time <? 24)%Z)
      then let t := (time mod 24)%Z in (t, [WarnTimeNormalized t])
      else (time, []) in
    let log := log0 ++ log1 ++ log2 ++ log3 in
    let i :=
      {| in_temperature := finite temperature;
         in_humidity := finite humidity;
         in_light := inject_Z light;
         in_rain := inject_Z rain;
         in_time := inject_Z time |} in
    let finish (output : Q) (log : list log_record) :=
      let recommendation :=
        if Qle_bool 70 output then "bagus"
        else if Qle_bool 30 output then "cukup"
        else "buruk" in
      (Ok {| recommendation := recommendation;
             confidence := output;
             status := "success";
             rules_activated := ["rule1"; "rule3"];
             parameters := mkInputParameters temperature humidity light rain time |},
       log) in
    match simulation i with
    | Output q => finish q log
    | NoOutput => finish 50 (log ++ [WarnNoRulesActivated])
    | ComputeValueError detail =>
        (Error (mkHTTPException 400 detail), log ++ [WarnInputValidation detail])
    | ComputeError =>
        (Error (mkHTTPException 500 "Internal server error during fuzzy evaluation"),
         log ++ [ErrorFuzzyEvaluation])
    end.

End Evaluate.

End Fuzzy.

(** ** Vocabulary of the statements on mqtt_handler.py *)

Module MqttSpec.
Import PyStr PyNum DateTime Mqtt.

(** The states in which the confirmation loop reads [servo_status]. *)
Fixpoint poll_states (window : list (list callback)) (self : MQTTClient)
  : list MQTTClient :=
  match window with
  | [] => []
  | cbs :: window' =>
      let self1 := (run_callbacks cbs self).1 in
      self1 :: poll_states window' self1
  end.

(** The attempt numbers announced in a trace. *)
Definition attempts_logged (t : list effect) : list nat :=
  omap (fun e => match e with
                 | Log (InfoAttempt k _ _) => Some k
                 | _ => None
                 end) t.

(** A callback that never makes [servo_status] equal to [action]. *)
Definition quiet (action : string) (cb : callback) : Prop :=
  forall self, servo_status self <> Some action ->
               servo_status (dispatch cb self).1 <> Some action.

Definition callbacks_of (env : attempt_env) : list callback :=
  before_attempt env ++ during_connect env ++ concat (window env).

Definition status_message (now : datetime) (payload : string) : callback :=
  OnMessage now (mkMessage "jemuran/status" (Some payload)).

Definition quiet_env : attempt_env :=
  {| before_attempt := []; connect_raises := false; during_connect := [];
     publish := PublishRc 0; window := [[]; []] |}.

Definition confirming_env (now : datetime) : attempt_env :=
  {| before_attempt := []; connect_raises := false; during_connect := [];
     publish := PublishRc 0; window := [[]; [status_message now "buka"]] |}.

Definition epoch : datetime := mkDatetime 2025 6 24 21 28 44 0.

(** The key of a token, when it has one. *)
Definition token_key (pair : string) : option string :=
  if contains ":" pair then Some (lower (strip (split1 ":" pair).1)) else None.

(** The value text of a token. *)
Definition token_value (pair : string) : string := strip (split1 ":" pair).2.

Definition is_none {A} (o : option A) : bool :=
  match o with Some _ => false | None => true end.

(** A token whose key asks for a number and whose value is not one. *)
Definition conversion_fails (pair : string) : bool :=
  match token_key pair with
  | Some key =>
      if mem key float_keys then is_none (float_of_string (token_value pair))
      else if String.eqb key "cahaya_analog" then is_none (int_of_string (token_value pair))
      else false
  | None => false
  end.

Definition same_locals (p q : parsed) : Prop :=
  data_dict p = data_dict q /\ rtc_time_str p = rtc_time_str q.

(** The payload of the parser example. *)
Definition example_payload : string :=
  "suhu:28.5,kelembapan:55,cahaya_analog:1800,hujan:tidak hujan,waktu:2025-06-24 21:28:44".

(** A telemetry message that [on_message] hands to the parser. *)
Definition is_data_message (cb : callback) : bool :=
  match cb with
  | OnMessage _ msg =>
      String.eqb (topic msg) "jemuran/data" &&
      match payload msg with Some _ => true | None => false end
  | _ => false
  end.

(** The clock read by a callback gives a valid [datetime]. *)
Definition clock_valid (cb : callback) : Prop :=
  match cb with
  | OnMessage now _ => valid now = true
  | _ => True
  end.

(** The dictionary holds an [int] under the light key and a [bool] under the
    rain key. *)
Definition typed (dd : gmap string pyvalue) : Prop :=
  (forall v, dd !! "cahaya_analog" = Some v -> exists n, v = VInt n) /\
  (forall v, dd !! "hujan" = Some v -> exists b, v = VBool b).

Definition well_typed (d : JemuranData) : Prop :=
  (exists n, light d = VInt n) /\ (exists b, rain d = VBool b) /\
  0 <= current_hour d <= 23.

Definition stored_well_typed (self : MQTTClient) : Prop :=
  match latest_data self with
  | Some d => well_typed d
  | None => True
  end.

Definition data_message (now : datetime) (payload : string) : callback :=
  OnMessage now (mkMessage "jemuran/data" (Some payload)).

(** A telemetry payload whose light value is 1 followed by 309 zeros. *)
Definition huge_light_payload : string :=
  "cahaya_analog:1" +:+ String.concat EmptyString (replicate 309 "0").

(** The character of a decimal digit. *)
Definition digit_char (n : Z) : ascii := ascii_of_N (48 + Z.to_N n).

Definition two_digits (n : Z) : string :=
  String (digit_char (n / 10)) (String (digit_char (n mod 10)) EmptyString).

Definition four_digits (n : Z) : string :=
  String (digit_char (n / 1000))
    (String (digit_char (n / 100 mod 10))
       (String (digit_char (n / 10 mod 10))
          (String (digit_char (n mod 10)) EmptyString))).

(** The four literal layouts of a timestamp. *)
Inductive layout : Type :=
| YmdHMS      (* YYYY-MM-DD HH:MM:SS *)
| dmYHMS      (* DD/MM/YYYY HH:MM:SS *)
| HMSdmY      (* HH:MM:SS DD-MM-YYYY *)
| YmdTHMS.    (* YYYY-MM-DDTHH:MM:SS *)

Definition clock_text (d : datetime) : string :=
  two_digits (hour d) +:+ ":" +:+ two_digits (minute d) +:+ ":" +:+ two_digits (second d).

Definition render (l : layout) (d : datetime) : string :=
  match l with
  | YmdHMS =>
      four_digits (year d) +:+ "-" +:+ two_digits (month d) +:+ "-" +:+
      two_digits (day d) +:+ " " +:+ clock_text d
  | dmYHMS =>
      two_digits (day d) +:+ "/" +:+ two_digits (month d) +:+ "/" +:+
      four_digits (year d) +:+ " " +:+ clock_text d
  | HMSdmY =>
      clock_text d +:+ " " +:+ two_digits (day d) +:+ "-" +:+
      two_digits (month d) +:+ "-" +:+ four_digits (year d)
  | YmdTHMS =>
      four_digits (year d) +:+ "-" +:+ two_digits (month d) +:+ "-" +:+
      two_digits (day d) +:+ "T" +:+ clock_text d
  end.

Definition append_rest (rest : string) (vr : Z * string) : Z * string :=
  (vr.1, vr.2 +:+ rest).

(** The first way a directive reads the zero-padded text of [n]. *)
Definition reads (d : directive) (text : Z -> string) (n : Z) : bool :=
  match match_directive d (text n) with
  | (v, EmptyString) :: _ => v =? n
  | _ => false
  end.

(** The first match of a compiled format. *)
Definition first_match (items : list item) (s : string)
  (vals : list (directive * Z)) (r : string) : Prop :=
  exists tl, match_format items s = (vals, r) :: tl.

Record in_bounds (d : datetime) : Prop := {
  year_bounds : 1 <= year d <= 9999;
  month_bounds : 1 <= month d <= 12;
  day_bounds : 1 <= day d <= 31;
  hour_bounds : 0 <= hour d <= 23;
  minute_bounds : 0 <= minute d <= 59;
  second_bounds : 0 <= second d <= 59
}.

Definition formats_items : list (list item) :=
  Eval vm_compute in omap compile formats_to_try.

(** Facts on digit characters. *)
Definition apart (c : ascii) (k : Z) : bool :=
  negb (Ascii.eqb (lower_char (digit_char k)) (lower_char c)).

(** The four layouts tried in order; the first that matches wins. *)
Definition first_layout_match (s : string) : option datetime :=
  match strptime s "%Y-%m-%d %H:%M:%S" with
  | Some t => Some t
  | None =>
      match strptime s "%d/%m/%Y %H:%M:%S" with
      | Some t => Some t
      | None =>
          match strptime s "%H:%M:%S %d-%m-%Y" with
          | Some t => Some t
          | None => strptime s "%Y-%m-%dT%H:%M:%S"
          end
      end
  end.

Definition new_year : datetime := mkDatetime 2026 1 1 0 0 0 0.

(** The publishes of a trace: topic, payload, qos and retain flag. *)
Definition published (t : list effect) : list (string * string * Z * bool) :=
  omap (fun e => match e with
                 | Publish topic payload qos retain => Some (topic, payload, qos, retain)
                 | _ => None
                 end) t.

(** A callback that assigns [servo_status]: a decodable message on the
    control topic or on the status topic. *)
Definition sets_status (cb : callback) : bool :=
  match cb with
  | OnMessage _ msg =>
      match payload msg with
      | Some _ => String.eqb (topic msg) "jemuran/control" || String.eqb (topic msg) "jemuran/status"
      | None => false
      end
  | _ => false
  end.

(** A timestamp that names the 30th of February. *)
Definition february_30 : string := "2025-02-30 10:00:00".

(** [zfill] writes the digits of the layouts. *)
Definition fills (w : nat) (text : Z -> string) (n : Z) : bool :=
  String.eqb (zfill w n) (text n).

(** The keys of a payload that reach the record. *)
Definition sensor_keys : list string := ["suhu"; "kelembapan"; "cahaya_analog"; "hujan"].

(** A token whose key is a sensor key or the timestamp key. *)
Definition relevant (pair : string) : bool :=
  match token_key pair with
  | Some k => mem k ("waktu" :: sensor_keys)
  | None => false
  end.

(** The locals agree on what the record is built from. *)
Definition same_record_locals (p q : parsed) : Prop :=
  (forall K, K ∈ sensor_keys -> data_dict p !! K = data_dict q !! K) /\
  rtc_time_str p = rtc_time_str q.

End MqttSpec.

(** ** Vocabulary of the statements on fuzzy_logic.py *)

Module FuzzySpec.
Import Fuzzy.
Local Open Scope Q_scope.

Definition unit_interval (y : Q) : Prop := 0 <= y /\ y <= 1.

Definition in_unit (y : Q) : bool := Qle_bool 0 y && Qle_bool y 1.

(** [lo <= x1 <= x2 <= ... <= xn <= hi] *)
Fixpoint chain (lo : Q) (l : list Q) (hi : Q) : Prop :=
  match l with
  | [] => lo <= hi
  | x :: l' => lo <= x /\ chain x l' hi
  end.

Definition within (lo hi x : Q) : Prop := lo <= x /\ x <= hi.

Fixpoint sortedb (lo : Q) (l : list Q) (hi : Q) : bool :=
  match l with
  | [] => Qle_bool lo hi
  | x :: l' => Qle_bool lo x && sortedb x l' hi
  end.

(** The inputs [evaluate] sets on the simulation, read from the
    [input_parameters] it returns: the five values after normalisation, each
    through [float]. *)
Definition simulation_inputs (p : input_parameters) : inputs :=
  {| in_temperature := finite (p_temperature p);
     in_humidity := finite (p_humidity p);
     in_light := inject_Z (p_light p);
     in_rain := inject_Z (p_rain p);
     in_time := inject_Z (p_time p) |}.

(** The category of a score. *)
Definition category (output : Q) : string :=
  if Qle_bool 70 output then "bagus"
  else if Qle_bool 30 output then "cukup"
  else "buruk".

(** The three normalisations of [evaluate]. *)
Definition clamp_light (light : Z) : Z := Z.max 0 (Z.min light 4096).
Definition coerce_rain (rain : Z) : Z := if (rain =? 0)%Z then 0%Z else 1%Z.
Definition wrap_hour (time : Z) : Z := (time mod 24)%Z.

(** The request is in the ranges in which [evaluate] changes nothing. *)
Definition normal (light rain time : Z) : Prop :=
  (0 <= light <= 4096)%Z /\ (rain = 0 \/ rain = 1)%Z /\ (0 <= time < 24)%Z.

(** *** Vocabulary of the bound on the centroid *)

(** The moment about [c] of the trapezium under the segment from
    [(x1, y1)] to [(x2, y2)]. *)
Definition moment_about (c x1 y1 x2 y2 : Q) : Q :=
  (x2 - x1) * (y1 * (2 * x1 + x2 - 3 * c) + y2 * (x1 + 2 * x2 - 3 * c)) / 6.

(** A primitive of [(x - c) * (alpha * x + beta)]. *)
Definition primitive (c alpha beta x : Q) : Q :=
  alpha * x * x * x / 3 + (beta - alpha * c) * x * x / 2 - beta * c * x.

(** Consecutive points of [x1 :: xs] are related by [seg]. *)
Fixpoint segments (seg : Q -> Q -> Prop) (x1 : Q) (xs : list Q) : Prop :=
  match xs with
  | [] => True
  | x2 :: xs' => seg x1 x2 /\ segments seg x2 xs'
  end.

(** Consecutive points with no point of [ps] strictly between them. *)
Definition separated (lo hi : Q) (ps : list Q) (x1 x2 : Q) : Prop :=
  lo <= x1 /\ x1 <= x2 /\ x2 <= hi /\ Forall (fun p => x2 <= p \/ p <= x1) ps.

(** The sample [(x, y)] is on or above the line where it is in [lo, hi]. *)
Definition sample_above (alpha beta lo hi x y : Q) : bool :=
  negb (Qle_bool lo x && Qle_bool x hi) || Qle_bool (alpha * x + beta) y.

(** Every segment of the polygon is inside or outside [lo, hi], and the
    samples inside are on or above the line. *)
Fixpoint minorant_from (alpha beta lo hi x0 y0 : Q) (xs ys : list Q) : bool :=
  match xs, ys with
  | [], _ => sample_above alpha beta lo hi x0 y0
  | _ :: _, [] => false
  | x1 :: xs', y1 :: ys' =>
      Qlt_bool x0 x1 &&
      (Qle_bool x1 lo || Qle_bool hi x0 || (Qle_bool lo x0 && Qle_bool x1 hi)) &&
      sample_above alpha beta lo hi x0 y0 &&
      sample_above alpha beta lo hi x1 y1 &&
      minorant_from alpha beta lo hi x1 y1 xs' ys'
  end.

Definition minorant (alpha beta lo hi : Q) (xs ys : list Q) : bool :=
  match xs, ys with
  | x0 :: xs', y0 :: ys' =>
      Qle_bool x0 lo && Qle_bool hi (List.last xs' x0) &&
      minorant_from alpha beta lo hi x0 y0 xs' ys'
  | _, _ => false
  end.

(** The activation levels: degrees in [0,1], with "fair" at 1. *)
Definition fair_full (cut : output_set -> Q) : Prop :=
  cut fair == 1 /\ forall o, 0 <= cut o /\ cut o <= 1.

(** A primitive of the bound on [(x - c) * surface], over four zones with
    a line each. *)
Definition potential (c : Q) (z1 z2 z3 z4 : Q * Q) (p1 p2 p3 x : Q) : Q :=
  if Qle_bool x p1 then primitive c z1.1 z1.2 x
  else if Qle_bool x p2 then
    primitive c z1.1 z1.2 p1 + (primitive c z2.1 z2.2 x - primitive c z2.1 z2.2 p1)
  else if Qle_bool x p3 then
    primitive c z1.1 z1.2 p1 + (primitive c z2.1 z2.2 p2 - primitive c z2.1 z2.2 p1)
    + (primitive c z3.1 z3.2 x - primitive c z3.1 z3.2 p2)
  else
    primitive c z1.1 z1.2 p1 + (primitive c z2.1 z2.2 p2 - primitive c z2.1 z2.2 p1)
    + (primitive c z3.1 z3.2 p3 - primitive c z3.1 z3.2 p2)
    + (primitive c z4.1 z4.2 x - primitive c z4.1 z4.2 p3).

(** The bound on the moment about 70: the surface is above "fair" up to
    70 and below 1 beyond. *)
Definition phi70 : Q -> Q :=
  potential 70 (0, 0) (1 # 30, - 2 # 3) (- 1 # 30, 8 # 3) (0, 1) 20 50 70.

(** The bound on the moment about 30: the surface is below 1 up to 30 and
    above "fair" beyond. *)
Definition phi30 : Q -> Q :=
  potential 30 (0, 1) (1 # 30, - 2 # 3) (- 1 # 30, 8 # 3) (0, 0) 30 50 80.

Definition kinks : list Q := [20; 30; 50; 70; 80].

End FuzzySpec.

(** * Properties of mqtt_handler.py *)

Module MqttProps.
Import PyStr PyNum DateTime Mqtt MqttSpec.

Lemma attempts_logged_app t1 t2 :
  attempts_logged (t1 ++ t2) = attempts_logged t1 ++ attempts_logged t2.
Proof. unfold attempts_logged. apply omap_app. Qed.

Lemma warnings_process_pair acc pair :
  attempts_logged (warnings acc) = [] ->
  attempts_logged (warnings (process_pair acc pair)) = [].
Proof.
  intros H. unfold process_pair.
  destruct (contains ":" pair); [| done].
  destruct (split1 ":" pair) as [key value].
  repeat (case_match; simpl; try done);
    rewrite attempts_logged_app, H; reflexivity.
Qed.

Lemma warnings_parse_tokens tokens : forall acc,
  attempts_logged (warnings acc) = [] ->
  attempts_logged (warnings (fold_left process_pair tokens acc)) = [].
Proof.
  induction tokens as [| p tokens IH]; intros acc H; simpl; [done |].
  apply IH. by apply warnings_process_pair.
Qed.

Lemma timestamp_no_attempt now rtc : attempts_logged (timestamp now rtc).2 = [].
Proof.
  unfold timestamp. destruct rtc as [[| c s] |]; try reflexivity.
  unfold parse_rtc_time. destruct (try_formats _ _); reflexivity.
Qed.

Lemma process_sensor_data_no_attempt now payload self :
  attempts_logged (process_sensor_data now payload self).2 = [].
Proof.
  unfold process_sensor_data, make_record.
  pose proof (timestamp_no_attempt now (rtc_time_str (parse_pairs payload))) as Ht.
  destruct (timestamp now _) as [d w]. simpl in *.
  rewrite !attempts_logged_app, Ht.
  unfold parse_pairs, parse_tokens. rewrite warnings_parse_tokens; done.
Qed.

Lemma dispatch_no_attempt cb self : attempts_logged (dispatch cb self).2 = [].
Proof.
  destruct cb as [now msg | rc | rc raises]; simpl.
  - unfold on_message. destruct (payload msg); [| done].
    repeat (case_match; try done). apply process_sensor_data_no_attempt.
  - unfold on_connect. case_match; done.
  - unfold on_disconnect, connect. simpl. repeat (case_match; simplify_eq; try done).
Qed.

Lemma run_callbacks_no_attempt cbs : forall self,
  attempts_logged (run_callbacks cbs self).2 = [].
Proof.
  induction cbs as [| cb cbs IH]; intros self; simpl; [done |].
  pose proof (dispatch_no_attempt cb self) as H1.
  destruct (dispatch cb self) as [self1 t1].
  specialize (IH self1). destruct (run_callbacks cbs self1) as [self2 t2].
  simpl in *. by rewrite attempts_logged_app, H1, IH.
Qed.

Lemma wait_confirmation_no_attempt action window : forall self,
  attempts_logged (wait_confirmation action window self).2 = [].
Proof.
  induction window as [| cbs window IH]; intros self; simpl; [done |].
  pose proof (run_callbacks_no_attempt cbs self) as H1.
  destruct (run_callbacks cbs self) as [self1 t1]. simpl in H1.
  case_bool_decide.
  - simpl. by rewrite attempts_logged_app, H1.
  - specialize (IH self1).
    destruct (wait_confirmation action window self1) as [[ok self2] t2].
    simpl in *. by rewrite attempts_logged_app, H1, IH.
Qed.

Lemma wait_confirmation_confirms action window : forall self,
  Exists (fun st => servo_status st = Some action) (poll_states window self) ->
  (wait_confirmation action window self).1.1 = true.
Proof.
  induction window as [| cbs window IH]; intros self H; simpl in *.
  - inversion H.
  - destruct (run_callbacks cbs self) as [self1 t1]. simpl in H.
    case_bool_decide as Hs; [done |].
    apply Exists_cons in H as [H | H]; [contradiction |].
    specialize (IH self1 H).
    destruct (wait_confirmation action window self1) as [[ok self2] t2].
    done.
Qed.

Lemma run_callbacks_quiet action cbs : forall self,
  Forall (quiet action) cbs ->
  servo_status self <> Some action ->
  servo_status (run_callbacks cbs self).1 <> Some action.
Proof.
  induction cbs as [| cb cbs IH]; intros self Hq Hs; simpl; [done |].
  inversion Hq as [| ? ? Hcb Hcbs]; subst.
  specialize (Hcb self Hs).
  destruct (dispatch cb self) as [self1 t1]. simpl in Hcb.
  specialize (IH self1 Hcbs Hcb).
  by destruct (run_callbacks cbs self1) as [self2 t2].
Qed.

Lemma wait_confirmation_times_out action window : forall self,
  Forall (quiet action) (concat window) ->
  servo_status self <> Some action ->
  (wait_confirmation action window self).1.1 = false /\
  servo_status (wait_confirmation action window self).1.2 <> Some action.
Proof.
  induction window as [| cbs window IH]; intros self Hq Hs; simpl in *; [done |].
  apply Forall_app in Hq as [Hq1 Hq2].
  pose proof (run_callbacks_quiet action cbs self Hq1 Hs) as H1.
  destruct (run_callbacks cbs self) as [self1 t1]. simpl in H1.
  case_bool_decide; [contradiction |].
  specialize (IH self1 Hq2 H1).
  by destruct (wait_confirmation action window self1) as [[ok self2] t2].
Qed.

Lemma connect_servo_status raises self :
  servo_status (connect raises self).1.2 = servo_status self.
Proof. unfold connect. repeat case_match; reflexivity. Qed.

Lemma connect_no_attempt raises self :
  attempts_logged (connect raises self).2 = [].
Proof. unfold connect. repeat case_match; reflexivity. Qed.

Lemma ensure_connected_no_attempt env self :
  attempts_logged (ensure_connected env self).2 = [].
Proof.
  unfold ensure_connected. destruct (negb (is_connected self)); [| done].
  pose proof (connect_no_attempt (connect_raises env) self) as Hc.
  destruct (connect (connect_raises env) self) as [[[u |] self1] t1]; simpl in Hc.
  - pose proof (run_callbacks_no_attempt (during_connect env) self1) as Hr.
    destruct (run_callbacks (during_connect env) self1) as [self2 t2]. simpl in Hr.
    destruct (negb (is_connected self2)); simpl;
      rewrite !attempts_logged_app, Hc, Hr; reflexivity.
  - simpl. rewrite attempts_logged_app, Hc. reflexivity.
Qed.

Lemma ensure_connected_quiet action env self :
  Forall (quiet action) (during_connect env) ->
  servo_status self <> Some action ->
  servo_status (ensure_connected env self).1.2 <> Some action.
Proof.
  intros Hq Hs. unfold ensure_connected.
  destruct (negb (is_connected self)); [| done].
  pose proof (connect_servo_status (connect_raises env) self) as Hc.
  destruct (connect (connect_raises env) self) as [[[u |] self1] t1]; simpl in Hc.
  - rewrite <- Hc in Hs.
    pose proof (run_callbacks_quiet action _ self1 Hq Hs) as Hr.
    destruct (run_callbacks (during_connect env) self1) as [self2 t2].
    by destruct (negb (is_connected self2)).
  - simpl. congruence.
Qed.

Lemma publish_and_wait_no_attempt action env self :
  attempts_logged (publish_and_wait action env self).2 = [].
Proof.
  unfold publish_and_wait. destruct (publish env) as [rc |]; [| done].
  destruct (rc =? MQTT_ERR_SUCCESS); [| done].
  pose proof (wait_confirmation_no_attempt action (window env) self) as Hw.
  destruct (wait_confirmation action (window env) self) as [[ok self1] t]. simpl in *.
  rewrite attempts_logged_app, Hw. by destruct ok.
Qed.

Lemma publish_and_wait_times_out action env self :
  Forall (quiet action) (concat (window env)) ->
  servo_status self <> Some action ->
  (publish_and_wait action env self).1.1 = false /\
  servo_status (publish_and_wait action env self).1.2 <> Some action.
Proof.
  intros Hq Hs. unfold publish_and_wait. destruct (publish env) as [rc |]; [| done].
  destruct (rc =? MQTT_ERR_SUCCESS); [| done].
  pose proof (wait_confirmation_times_out action (window env) self Hq Hs) as Hw.
  by destruct (wait_confirmation action (window env) self) as [[ok self1] t].
Qed.

Lemma attempt_body_logs action attempt max_retries env self :
  attempts_logged (attempt_body action attempt max_retries env self).2 = [attempt].
Proof.
  unfold attempt_body.
  pose proof (run_callbacks_no_attempt (before_attempt env) self) as H0.
  destruct (run_callbacks (before_attempt env) self) as [self0 t0]. simpl in H0.
  pose proof (ensure_connected_no_attempt env self0) as H1.
  destruct (ensure_connected env self0) as [[ready self1] t1]. simpl in H1.
  destruct ready.
  - pose proof (publish_and_wait_no_attempt action env self1) as H2.
    destruct (publish_and_wait action env self1) as [[ok self2] t2]. simpl in *.
    by rewrite !attempts_logged_app, H0, H1, H2.
  - simpl. by rewrite !attempts_logged_app, H0, H1.
Qed.

Lemma attempt_body_times_out action attempt max_retries env self :
  Forall (quiet action) (callbacks_of env) ->
  servo_status self <> Some action ->
  (attempt_body action attempt max_retries env self).1.1 = false /\
  servo_status (attempt_body action attempt max_retries env self).1.2 <> Some action.
Proof.
  intros Hq Hs. unfold callbacks_of in Hq.
  apply Forall_app in Hq as [Hq0 Hq]. apply Forall_app in Hq as [Hq1 Hq2].
  unfold attempt_body.
  pose proof (run_callbacks_quiet action _ self Hq0 Hs) as H0.
  destruct (run_callbacks (before_attempt env) self) as [self0 t0]. simpl in H0.
  pose proof (ensure_connected_quiet action env self0 Hq1 H0) as H1.
  destruct (ensure_connected env self0) as [[ready self1] t1]. simpl in H1.
  destruct ready; [| done].
  pose proof (publish_and_wait_times_out action env self1 Hq2 H1) as H2.
  by destruct (publish_and_wait action env self1) as [[ok self2] t2].
Qed.

Lemma attempts_exhausted action max_retries envs remaining : forall attempt self,
  (forall k, Forall (quiet action) (callbacks_of (envs k))) ->
  servo_status self <> Some action ->
  (attempts action max_retries remaining attempt envs self).1.1 = false /\
  attempts_logged (attempts action max_retries remaining attempt envs self).2
  = seq attempt remaining.
Proof.
  induction remaining as [| remaining IH]; intros attempt self Hq Hs; simpl; [done |].
  pose proof (attempt_body_times_out action attempt max_retries (envs attempt) self
                (Hq attempt) Hs) as [Hb1 Hb2].
  pose proof (attempt_body_logs action attempt max_retries (envs attempt) self) as Hl.
  destruct (attempt_body action attempt max_retries (envs attempt) self)
    as [[ok self1] t1].
  simpl in *. subst ok.
  specialize (IH (S attempt) self1 Hq Hb2).
  destruct (attempts action max_retries remaining (S attempt) envs self1)
    as [[ok' self2] t2].
  simpl in *. destruct IH as [-> IH]. split; [done |].
  by rewrite attempts_logged_app, Hl, IH.
Qed.

(** C6: for a valid action, when the first attempt gets to its confirmation
    window (it is connected and the publish succeeds) and some read of the
    window sees [servo_status] equal to the action, [send_control] returns
    success and only attempt 1 was made; when [servo_status] never equals the
    action, it returns the failure that names the action and 3 attempts, after
    exactly the attempts 1, 2 and 3. *)
Theorem send_control_confirmation (action : string) (envs : nat -> attempt_env)
  (self : MQTTClient) :
  mem action ["buka"; "tutup"] = true ->
  let self0 := (run_callbacks (before_attempt (envs 1%nat)) self).1 in
  ((ensure_connected (envs 1%nat) self0).1.1 = true ->
   publish (envs 1%nat) = PublishRc MQTT_ERR_SUCCESS ->
   Exists (fun st => servo_status st = Some action)
          (poll_states (window (envs 1%nat)) (ensure_connected (envs 1%nat) self0).1.2) ->
   (send_control action envs self).1.1 = (true, "Servo successfully " +:+ action) /\
   attempts_logged (send_control action envs self).2 = [1%nat]) /\
  ((forall k, Forall (quiet action) (callbacks_of (envs k))) ->
   servo_status self <> Some action ->
   (send_control action envs self).1.1 =
     (false, "Failed to send command " +:+ action +:+ " after 3 attempts") /\
   attempts_logged (send_control action envs self).2 = [1%nat; 2%nat; 3%nat]).
Proof.
  intros Hvalid self0. unfold send_control, publish_control. rewrite Hvalid. cbn [negb].
  split.
  - intros Hready Hpub Hex.
    cbn [attempts].
    pose proof (attempt_body_logs action 1 3 (envs 1%nat) self) as Hl.
    assert (Hok : (attempt_body action 1 3 (envs 1%nat) self).1.1 = true).
    { unfold attempt_body. subst self0.
      destruct (run_callbacks (before_attempt (envs 1%nat)) self) as [s0 t0].
      cbn [fst] in *.
      destruct (ensure_connected (envs 1%nat) s0) as [[ready s1] t1].
      cbn [fst snd] in *. subst ready.
      pose proof (wait_confirmation_confirms action _ s1 Hex) as Hw.
      unfold publish_and_wait. rewrite Hpub, Z.eqb_refl.
      destruct (wait_confirmation action (window (envs 1%nat)) s1) as [[ok s2] t2].
      cbn [fst] in *. by subst ok. }
    destruct (attempt_body action 1 3 (envs 1%nat) self) as [[ok s1] t1].
    cbn [fst snd] in *. subst ok. done.
  - intros Hq Hs.
    pose proof (attempts_exhausted action 3 envs 3 1 self Hq Hs) as [Hf Hl].
    destruct (attempts action 3 3 1 envs self) as [[ok s1] t].
    cbn [fst snd] in *. subst ok. cbn [fst snd]. split; [reflexivity |].
    rewrite attempts_logged_app, Hl. reflexivity.
Qed.

Lemma send_control_confirmation_witness :
  ((send_control "buka" (fun _ => confirming_env epoch) init).1.1
   = (true, "Servo successfully buka") /\
   attempts_logged (send_control "buka" (fun _ => confirming_env epoch) init).2 = [1%nat]) /\
  ((send_control "buka" (fun _ => quiet_env) init).1.1
   = (false, "Failed to send command buka after 3 attempts") /\
   attempts_logged (send_control "buka" (fun _ => quiet_env) init).2
   = [1%nat; 2%nat; 3%nat]).
Proof.
  split.
  - apply (proj1 (send_control_confirmation "buka" (fun _ => confirming_env epoch) init
                    eq_refl)).
    + reflexivity.
    + reflexivity.
    + apply Exists_cons_tl, Exists_cons_hd. reflexivity.
  - apply (proj2 (send_control_confirmation "buka" (fun _ => quiet_env) init eq_refl)).
    + intros k. unfold callbacks_of, quiet_env. cbn [before_attempt during_connect window concat app]. constructor.
    + discriminate.
Defined.

(** An action other than "buka" and "tutup" is refused before the loop: the
    state is unchanged and the only effect is the error log. *)
Lemma invalid_action_rejected (action : string) (max_retries : nat)
  (envs : nat -> attempt_env) (self : MQTTClient) :
  mem action ["buka"; "tutup"] = false ->
  publish_control action max_retries envs self =
    ((false, "Invalid command: " +:+ action +:+ " (must be 'buka' or 'tutup')"), self,
     [Log (ErrorInvalidCommand
             ("Invalid command: " +:+ action +:+ " (must be 'buka' or 'tutup')"))]).
Proof. intros H. unfold publish_control. by rewrite H. Qed.

(** A message on the control topic does change [servo_status], and it
    confirms a waiting command. *)
Lemma control_echo_sets_servo_status :
  servo_status init = None /\
  servo_status
    (on_message epoch (mkMessage "jemuran/control" (Some "buka")) init).1 = Some "buka" /\
  (wait_confirmation "buka"
     [[OnMessage epoch (mkMessage "jemuran/control" (Some "buka"))]] init).1.1 = true.
Proof. repeat split. Qed.

Lemma process_sensor_data_servo_status now payload self :
  servo_status (process_sensor_data now payload self).1 = servo_status self.
Proof.
  unfold process_sensor_data. by destruct (make_record now (parse_pairs payload)).
Qed.

(** C5, as the code has it: a decodable message on the control topic or on
    the status topic sets [servo_status] to its payload; every other message
    (telemetry, other topics, undecodable payloads) leaves it unchanged. *)
Theorem servo_status_updates (now : datetime) (msg : MQTTMessage) (self : MQTTClient) :
  match payload msg with
  | Some p =>
      if bool_decide (topic msg = "jemuran/control" \/ topic msg = "jemuran/status")
      then servo_status (on_message now msg self).1 = Some p
      else servo_status (on_message now msg self).1 = servo_status self
  | None => servo_status (on_message now msg self).1 = servo_status self
  end.
Proof.
  unfold on_message. destruct (payload msg) as [p |]; [| done].
  destruct (String.eqb_spec (topic msg) "jemuran/control") as [-> | H1].
  { rewrite bool_decide_eq_true_2 by (by left). done. }
  destruct (String.eqb_spec (topic msg) "jemuran/status") as [-> | H2].
  { rewrite bool_decide_eq_true_2 by (by right). done. }
  rewrite bool_decide_eq_false_2 by (intros [? | ?]; contradiction).
  destruct (String.eqb (topic msg) "jemuran/data"); [| done].
  apply process_sensor_data_servo_status.
Qed.

Lemma field_mapping_lookup k k' :
  field_mapping !! k = Some k' ->
  (k, k') ∈ [ ("suhu", "temperature"); ("kelembapan", "humidity");
             ("cahaya_analog", "light"); ("hujan", "rain") ].
Proof. apply elem_of_list_to_map_2. Qed.

Lemma field_mapping_inj k1 k2 k' :
  field_mapping !! k1 = Some k' -> field_mapping !! k2 = Some k' -> k1 = k2.
Proof.
  intros H1 H2. apply field_mapping_lookup, list_elem_of_In in H1.
  apply field_mapping_lookup, list_elem_of_In in H2.
  simpl in H1, H2.
  destruct H1 as [H1 | [H1 | [H1 | [H1 | []]]]];
    destruct H2 as [H2 | [H2 | [H2 | [H2 | []]]]]; by simplify_eq.
Qed.

Lemma mapped_data_lookup dd k k' :
  field_mapping !! k = Some k' -> mapped_data dd !! k' = dd !! k.
Proof.
  intros Hk. unfold mapped_data.
  destruct (dd !! k) as [v |] eqn:E.
  - apply elem_of_list_to_map_1'.
    + intros y Hy. apply list_elem_of_omap in Hy as ([k2 v2] & Hin & Hf).
      simpl in Hf. destruct (field_mapping !! k2) as [k2' |] eqn:E2; [| discriminate].
      injection Hf as -> ->.
      rewrite (field_mapping_inj k2 k k' E2 Hk) in Hin.
      apply elem_of_map_to_list in Hin. congruence.
    + apply list_elem_of_omap. exists (k, v). split.
      * by apply elem_of_map_to_list.
      * simpl. by rewrite Hk.
  - apply not_elem_of_list_to_map_1. intros Hin.
    apply list_elem_of_fmap in Hin as ([k'' y] & Heq & Hy). simpl in Heq. subst k''.
    apply list_elem_of_omap in Hy as ([k2 v2] & Hin & Hf).
    simpl in Hf. destruct (field_mapping !! k2) as [k2' |] eqn:E2; [| discriminate].
    injection Hf as -> ->.
    rewrite (field_mapping_inj k2 k k' E2 Hk) in Hin.
    apply elem_of_map_to_list in Hin. congruence.
Qed.

Lemma get_temperature dd :
  get (mapped_data dd) "temperature" (VFloat (FNum 0)) = default (VFloat (FNum 0)) (dd !! "suhu").
Proof. unfold get. by rewrite (mapped_data_lookup dd "suhu" "temperature"). Qed.

Lemma get_humidity dd :
  get (mapped_data dd) "humidity" (VFloat (FNum 0))
  = default (VFloat (FNum 0)) (dd !! "kelembapan").
Proof. unfold get. by rewrite (mapped_data_lookup dd "kelembapan" "humidity"). Qed.

Lemma get_light dd :
  get (mapped_data dd) "light" (VInt 0) = default (VInt 0) (dd !! "cahaya_analog").
Proof. unfold get. by rewrite (mapped_data_lookup dd "cahaya_analog" "light"). Qed.

Lemma get_rain dd :
  get (mapped_data dd) "rain" (VBool false) = default (VBool false) (dd !! "hujan").
Proof. unfold get. by rewrite (mapped_data_lookup dd "hujan" "rain"). Qed.

(** What one token does to the dictionary at a key it does not carry. *)
Lemma process_pair_other acc pair K :
  token_key pair <> Some K ->
  data_dict (process_pair acc pair) !! K = data_dict acc !! K.
Proof.
  unfold token_key, process_pair. intros H.
  destruct (contains ":" pair); [| done].
  destruct (split1 ":" pair) as [key value]. simpl in H.
  assert (Hne : lower (strip key) <> K) by congruence.
  repeat (case_match; simpl; try done); by rewrite lookup_insert_ne.
Qed.

Lemma parse_other tokens K : forall acc,
  Forall (fun p => token_key p <> Some K) tokens ->
  data_dict (fold_left process_pair tokens acc) !! K = data_dict acc !! K.
Proof.
  induction tokens as [| p tokens IH]; intros acc H; simpl; [done |].
  inversion H; subst. rewrite IH by done. by apply process_pair_other.
Qed.

Lemma process_pair_hujan acc pair :
  token_key pair = Some "hujan" ->
  data_dict (process_pair acc pair) !! "hujan"
  = Some (VBool (negb (mem (lower (token_value pair)) no_rain_words))).
Proof.
  unfold token_key, token_value, process_pair. intros H.
  destruct (contains ":" pair); [| discriminate].
  destruct (split1 ":" pair) as [key value]. simpl in *.
  injection H as ->. simpl. apply lookup_insert_eq.
Qed.

Lemma process_pair_same acc acc' pair :
  same_locals acc acc' -> same_locals (process_pair acc pair) (process_pair acc' pair).
Proof.
  intros [Hd Hr]. unfold process_pair, same_locals.
  destruct (contains ":" pair); [| done].
  destruct (split1 ":" pair) as [key value].
  repeat (case_match; simpl; try done); by rewrite Hd.
Qed.

Lemma parse_same tokens : forall acc acc',
  same_locals acc acc' ->
  same_locals (fold_left process_pair tokens acc) (fold_left process_pair tokens acc').
Proof.
  induction tokens as [| p tokens IH]; intros acc acc' H; simpl; [done |].
  by apply IH, process_pair_same.
Qed.

Lemma make_record_same now p q :
  same_locals p q -> (make_record now p).1 = (make_record now q).1.
Proof.
  intros [Hd Hr]. unfold make_record. rewrite Hd, Hr.
  by destruct (timestamp now (rtc_time_str q)).
Qed.

Lemma process_pair_dropped acc pair :
  conversion_fails pair = true -> same_locals (process_pair acc pair) acc.
Proof.
  unfold conversion_fails, token_key, token_value, process_pair. intros H.
  destruct (contains ":" pair); [| discriminate H].
  destruct (split1 ":" pair) as [key value]. cbn [fst snd] in H.
  destruct (String.eqb_spec (lower (strip key)) "waktu") as [E | _].
  { rewrite E in H. simpl in H. discriminate H. }
  destruct (mem (lower (strip key)) float_keys).
  { destruct (float_of_string (strip value)); [simpl in H; discriminate H | done]. }
  destruct (String.eqb (lower (strip key)) "cahaya_analog"); [| discriminate H].
  destruct (int_of_string (strip value)); [simpl in H; discriminate H | done].
Qed.

Lemma process_pair_no_supply acc pair K :
  (token_key pair = Some K -> conversion_fails pair = true) ->
  data_dict (process_pair acc pair) !! K = data_dict acc !! K.
Proof.
  intros H. destruct (decide (token_key pair = Some K)) as [E | E].
  - by destruct (process_pair_dropped acc pair (H E)) as [-> _].
  - by apply process_pair_other.
Qed.

Lemma parse_no_supply tokens K : forall acc,
  Forall (fun p => token_key p = Some K -> conversion_fails p = true) tokens ->
  data_dict (fold_left process_pair tokens acc) !! K = data_dict acc !! K.
Proof.
  induction tokens as [| p tokens IH]; intros acc H; simpl; [done |].
  inversion H; subst. rewrite IH by done. by apply process_pair_no_supply.
Qed.

Lemma latest_data_process now payload self :
  latest_data (process_sensor_data now payload self).1
  = Some (make_record now (parse_pairs payload)).1.
Proof.
  unfold process_sensor_data. by destruct (make_record now (parse_pairs payload)).
Qed.

(** With the key sent twice, the failing token is dropped and the field keeps
    the value of the earlier token, not its default. *)
Lemma duplicate_key_keeps_earlier_value :
  split "," "suhu:20,suhu:abc" = ["suhu:20"; "suhu:abc"] /\
  conversion_fails "suhu:abc" = true /\
  temperature <$> latest_data (process_sensor_data epoch "suhu:20,suhu:abc" init).1
  = Some (VFloat (FNum 20)).
Proof. repeat split; vm_compute; reflexivity. Qed.

(** C8, as the code has it: a token whose numeric value fails conversion
    does not reject the payload; the record stored is the one built from the
    other tokens; and its field takes the default when no other token of the
    message supplies a convertible value for the same key. *)
Theorem failed_field_dropped (now : datetime) (payload : string) (self : MQTTClient)
  (l1 l2 : list string) (bad : string) :
  split "," payload = l1 ++ bad :: l2 ->
  conversion_fails bad = true ->
  exists d,
    latest_data (process_sensor_data now payload self).1 = Some d /\
    d = (make_record now (parse_tokens (l1 ++ l2))).1 /\
    (Forall (fun p => token_key p = token_key bad -> conversion_fails p = true) (l1 ++ l2) ->
     (token_key bad = Some "suhu" -> temperature d = VFloat (FNum 0)) /\
     (token_key bad = Some "kelembapan" -> humidity d = VFloat (FNum 0)) /\
     (token_key bad = Some "cahaya_analog" -> light d = VInt 0)).
Proof.
  intros Hsplit Hbad. eexists. split; [apply latest_data_process |].
  assert (Hsame : same_locals (parse_pairs payload) (parse_tokens (l1 ++ l2))).
  { unfold parse_pairs, parse_tokens. rewrite Hsplit, !fold_left_app. simpl.
    apply parse_same, process_pair_dropped, Hbad. }
  split; [by apply make_record_same |].
  intros Hall.
  rewrite (make_record_same now _ _ Hsame).
  assert (Hnone : forall K, token_key bad = Some K ->
                            data_dict (parse_tokens (l1 ++ l2)) !! K = None).
  { intros K HK. unfold parse_tokens. rewrite parse_no_supply; [done |].
    eapply Forall_impl; [exact Hall |]. simpl. intros p Hp Hk. apply Hp. congruence. }
  unfold make_record. destruct (timestamp now _) as [lu w]. simpl.
  repeat split; intros HK.
  - by rewrite get_temperature, (Hnone _ HK).
  - by rewrite get_humidity, (Hnone _ HK).
  - by rewrite get_light, (Hnone _ HK).
Qed.

Lemma failed_field_dropped_witness :
  exists d,
    latest_data (process_sensor_data epoch "suhu:abc,kelembapan:55" init).1 = Some d /\
    d = (make_record epoch (parse_tokens ([] ++ ["kelembapan:55"]))).1 /\
    (Forall (fun p => token_key p = token_key "suhu:abc" -> conversion_fails p = true)
            ([] ++ ["kelembapan:55"]) ->
     (token_key "suhu:abc" = Some "suhu" -> temperature d = VFloat (FNum 0)) /\
     (token_key "suhu:abc" = Some "kelembapan" -> humidity d = VFloat (FNum 0)) /\
     (token_key "suhu:abc" = Some "cahaya_analog" -> light d = VInt 0)).
Proof.
  apply (failed_field_dropped epoch "suhu:abc,kelembapan:55" init [] ["kelembapan:55"]
           "suhu:abc"); reflexivity.
Defined.

(** C7: the example payload gives temperature 28.5, humidity 55, light 1800,
    rain false and hour 21; and for every payload, the rain field of the
    record is a boolean that is false exactly when the value text of the last
    rain token, lowered, is "tidak hujan", "false" or "0". *)
Theorem parser_example_and_rain :
  (forall now self,
     latest_data (process_sensor_data now example_payload self).1
     = Some {| temperature := VFloat (FNum (57 # 2)); humidity := VFloat (FNum 55);
               light := VInt 1800; rain := VBool false;
               last_update := mkDatetime 2025 6 24 21 28 44 0; current_hour := 21 |}) /\
  (forall now payload self l1 pair l2,
     split "," payload = l1 ++ pair :: l2 ->
     token_key pair = Some "hujan" ->
     Forall (fun p => token_key p <> Some "hujan") l2 ->
     exists d,
       latest_data (process_sensor_data now payload self).1 = Some d /\
       (rain d = VBool false \/ rain d = VBool true) /\
       (rain d = VBool false <->
        lower (token_value pair) = "tidak hujan" \/ lower (token_value pair) = "false" \/
        lower (token_value pair) = "0")).
Proof.
  split.
  - intros now self. rewrite latest_data_process. vm_compute. reflexivity.
  - intros now payload self l1 pair l2 Hsplit Hkey Hrest.
    eexists. split; [apply latest_data_process |].
    assert (Hr : rain (make_record now (parse_pairs payload)).1
                 = VBool (negb (mem (lower (token_value pair)) no_rain_words))).
    { unfold make_record. destruct (timestamp now _) as [lu w]. simpl.
      rewrite get_rain. unfold parse_pairs, parse_tokens.
      rewrite Hsplit, fold_left_app. simpl.
      rewrite (parse_other l2 "hujan") by exact Hrest.
      by rewrite process_pair_hujan. }
    rewrite Hr. generalize (lower (token_value pair)). intros v.
    unfold mem, no_rain_words. simpl.
    destruct (String.eqb_spec v "tidak hujan") as [-> | H1]; simpl.
    { split; [by left | split; [by left | done]]. }
    destruct (String.eqb_spec v "false") as [-> | H2]; simpl.
    { split; [by left | split; [by right; left | done]]. }
    destruct (String.eqb_spec v "0") as [-> | H3]; simpl.
    { split; [by left | split; [by right; right | done]]. }
    split; [by right |]. split; [discriminate |]. intros [? | [? | ?]]; contradiction.
Qed.

Lemma parser_example_and_rain_witness :
  exists d,
    latest_data (process_sensor_data epoch example_payload init).1 = Some d /\
    (rain d = VBool false \/ rain d = VBool true) /\
    (rain d = VBool false <->
     lower (token_value "hujan:tidak hujan") = "tidak hujan" \/
     lower (token_value "hujan:tidak hujan") = "false" \/
     lower (token_value "hujan:tidak hujan") = "0").
Proof.
  apply (proj2 parser_example_and_rain epoch example_payload init
           ["suhu:28.5"; "kelembapan:55"; "cahaya_analog:1800"] "hujan:tidak hujan"
           ["waktu:2025-06-24 21:28:44"]).
  - reflexivity.
  - reflexivity.
  - constructor; [discriminate | constructor].
Defined.

Lemma typed_insert dd key v :
  typed dd ->
  (key = "cahaya_analog" -> exists n, v = VInt n) ->
  (key = "hujan" -> exists b, v = VBool b) ->
  typed (<[key := v]> dd).
Proof.
  intros [H1 H2] Hl Hr. split; intros w Hw.
  - destruct (decide (key = "cahaya_analog")) as [-> | Hne].
    + rewrite lookup_insert_eq in Hw. injection Hw as <-. by apply Hl.
    + rewrite lookup_insert_ne in Hw by done. by apply H1.
  - destruct (decide (key = "hujan")) as [-> | Hne].
    + rewrite lookup_insert_eq in Hw. injection Hw as <-. by apply Hr.
    + rewrite lookup_insert_ne in Hw by done. by apply H2.
Qed.

Lemma process_pair_typed acc pair :
  typed (data_dict acc) -> typed (data_dict (process_pair acc pair)).
Proof.
  intros H. unfold process_pair.
  destruct (contains ":" pair); [| done].
  destruct (split1 ":" pair) as [key value].
  destruct (String.eqb (lower (strip key)) "waktu"); [done |].
  destruct (mem (lower (strip key)) float_keys) eqn:Ef.
  { destruct (float_of_string (strip value)); [| done].
    apply typed_insert; [done | |]; intros E; rewrite E in Ef; discriminate Ef. }
  destruct (String.eqb_spec (lower (strip key)) "cahaya_analog") as [E | Hne].
  { destruct (int_of_string (strip value)) as [n |]; [| done].
    apply typed_insert; [done | by exists n |]. intros E'. rewrite E in E'. discriminate E'. }
  destruct (String.eqb_spec (lower (strip key)) "hujan") as [E | Hne'].
  { apply typed_insert; [done | | by eexists].
    intros E'. rewrite E in E'. discriminate E'. }
  apply typed_insert; [done | |]; intros E; contradiction.
Qed.

Lemma parse_typed tokens : forall acc,
  typed (data_dict acc) -> typed (data_dict (fold_left process_pair tokens acc)).
Proof.
  induction tokens as [| p tokens IH]; intros acc H; simpl; [done |].
  by apply IH, process_pair_typed.
Qed.

Lemma make_valid y m d H M S dt : make y m d H M S = Some dt -> valid dt = true.
Proof. unfold make. case_match; [| discriminate]. by intros [= <-]. Qed.

Lemma strptime_valid s fmt d : strptime s fmt = Some d -> valid d = true.
Proof.
  unfold strptime. destruct (compile fmt); [| discriminate].
  destruct (match_format _ s) as [| [vals [| c r]] ?]; try discriminate.
  apply make_valid.
Qed.

Lemma try_formats_valid s fmts d : try_formats s fmts = Some d -> valid d = true.
Proof.
  induction fmts as [| fmt fmts IH]; simpl; [discriminate |].
  destruct (strptime s fmt) eqn:E; [| done].
  intros [= <-]. by apply strptime_valid in E.
Qed.

Lemma timestamp_valid now rtc : valid now = true -> valid (timestamp now rtc).1 = true.
Proof.
  intros H. unfold timestamp. destruct rtc as [[| c s] |]; try done.
  unfold parse_rtc_time. destruct (try_formats _ _) eqn:E; [| done].
  by apply try_formats_valid in E.
Qed.

Lemma valid_hour d : valid d = true -> 0 <= hour d <= 23.
Proof.
  unfold valid, between. intros H.
  repeat (apply andb_prop in H as [H ?]). lia.
Qed.

Lemma make_record_well_typed now p :
  valid now = true -> typed (data_dict p) -> well_typed (make_record now p).1.
Proof.
  intros Hnow [Hl Hr]. unfold make_record.
  pose proof (timestamp_valid now (rtc_time_str p) Hnow) as Hv.
  destruct (timestamp now (rtc_time_str p)) as [lu w]. simpl in *.
  unfold well_typed. simpl. rewrite get_light, get_rain. repeat split.
  - destruct (data_dict p !! "cahaya_analog") as [v |] eqn:E; simpl; [by apply Hl | by eexists].
  - destruct (data_dict p !! "hujan") as [v |] eqn:E; simpl; [by apply Hr | by eexists].
  - by apply valid_hour.
  - by apply valid_hour.
Qed.

Lemma typed_empty : typed ∅.
Proof. split; intros v H; by rewrite lookup_empty in H. Qed.

Lemma dispatch_invariant cb self :
  clock_valid cb -> stored_well_typed self ->
  stored_well_typed (dispatch cb self).1 /\
  (if is_data_message cb then is_Some (latest_data (dispatch cb self).1)
   else latest_data (dispatch cb self).1 = latest_data self).
Proof.
  intros Hc Hs. destruct cb as [now msg | rc | rc raises]; simpl in *.
  - unfold on_message. destruct (payload msg) as [p |].
    + destruct (String.eqb (topic msg) "jemuran/control") eqn:E1.
      { apply String.eqb_eq in E1. rewrite E1. simpl. done. }
      destruct (String.eqb (topic msg) "jemuran/status") eqn:E2.
      { apply String.eqb_eq in E2. rewrite E2. simpl. done. }
      destruct (String.eqb (topic msg) "jemuran/data") eqn:E3; simpl; [| done].
      unfold stored_well_typed. rewrite latest_data_process. split; [| by eexists].
      apply make_record_well_typed; [done |].
      unfold parse_pairs, parse_tokens. apply parse_typed, typed_empty.
    + rewrite andb_false_r. done.
  - unfold on_connect. by destruct (rc =? 0).
  - unfold on_disconnect, connect. simpl. by repeat case_match; simplify_eq.
Qed.

Lemma run_callbacks_invariant cbs : forall self,
  Forall clock_valid cbs -> stored_well_typed self ->
  stored_well_typed (run_callbacks cbs self).1 /\
  (if existsb is_data_message cbs
   then is_Some (latest_data self) \/ True ->
        is_Some (latest_data (run_callbacks cbs self).1)
   else latest_data (run_callbacks cbs self).1 = latest_data self) /\
  (is_Some (latest_data self) -> is_Some (latest_data (run_callbacks cbs self).1)).
Proof.
  induction cbs as [| cb cbs IH]; intros self Hc Hs; simpl; [done |].
  inversion Hc as [| ? ? Hcb Hcbs]; subst.
  destruct (dispatch_invariant cb self Hcb Hs) as [H1 H2].
  destruct (dispatch cb self) as [self1 t1]. simpl in *.
  destruct (IH self1 Hcbs H1) as (H3 & H4 & H5).
  destruct (run_callbacks cbs self1) as [self2 t2]. simpl in *.
  split; [done |]. split.
  - destruct (is_data_message cb); simpl.
    + intros _. by apply H5.
    + destruct (existsb is_data_message cbs).
      * intros _. by apply H4; right.
      * congruence.
  - intros Hsome. apply H5. destruct (is_data_message cb); [done | congruence].
Qed.

Lemma float_overflow_large : 4096 < float_overflow.
Proof. reflexivity. Qed.

Lemma float_of_int_returns n :
  Z.abs n < float_overflow -> float_of_int n = Returns (FNum (inject_Z n)).
Proof. intros H. unfold float_of_int. by rewrite (proj2 (Z.ltb_lt _ _) H). Qed.

Lemma float_of_int_raises n : float_overflow <= Z.abs n -> float_of_int n = Raises.
Proof. intros H. unfold float_of_int. by rewrite (proj2 (Z.ltb_ge _ _) H). Qed.

Lemma get_formatted_data_well_typed self d :
  latest_data self = Some d -> well_typed d ->
  exists n,
    light d = VInt n /\
    (Z.abs n < float_overflow ->
     exists api input,
       get_formatted_data self = Returns (Some api, Some input) /\
       (in_rain input = FNum 0 \/ in_rain input = FNum 1) /\
       exists h, in_time input = FNum (inject_Z h) /\ 0 <= h <= 23) /\
    (float_overflow <= Z.abs n -> get_formatted_data self = Raises).
Proof.
  intros Hl ([n Hn] & [b Hb] & Hh). exists n. split; [exact Hn |].
  unfold get_formatted_data. rewrite Hl, Hn. cbn [py_float]. split.
  - intros Hsmall. rewrite (float_of_int_returns n Hsmall).
    pose proof float_overflow_large as Hlarge.
    rewrite (float_of_int_returns (current_hour d)) by lia.
    eexists _, _. split; [reflexivity |]. cbn [in_rain in_time]. split.
    + rewrite Hb. destruct b; simpl; [by right | by left].
    + by exists (current_hour d).
  - intros Hbig. by rewrite (float_of_int_raises n Hbig).
Qed.

(** After a telemetry message whose light value is beyond the range of a
    double, [get_formatted_data] raises. *)
Lemma huge_light_raises :
  existsb is_data_message [data_message epoch huge_light_payload] = true /\
  light <$> latest_data (run_callbacks [data_message epoch huge_light_payload] init).1
  = Some (VInt (10 ^ 309)) /\
  get_formatted_data (run_callbacks [data_message epoch huge_light_payload] init).1
  = Raises.
Proof. repeat split; vm_compute; reflexivity. Qed.

(** C10, as the code has it: from the initial client, after any callbacks of
    the network thread (with a valid clock): when none of them was a
    decodable telemetry message, [get_formatted_data] returns (None, None);
    otherwise a record is stored, its light is an integer, and
    [get_formatted_data] returns two records when that integer is within the
    range of a double and raises when it is not; when it returns, the
    recommendation input has rain 0.0 or 1.0 and as time an integer hour
    between 0 and 23. *)
Theorem formatted_data_invariant (cbs : list callback) :
  Forall clock_valid cbs ->
  (existsb is_data_message cbs = false ->
   get_formatted_data (run_callbacks cbs init).1 = Returns (None, None)) /\
  (existsb is_data_message cbs = true ->
   exists d n,
     latest_data (run_callbacks cbs init).1 = Some d /\ light d = VInt n /\
     (Z.abs n < float_overflow ->
      exists api input,
        get_formatted_data (run_callbacks cbs init).1 = Returns (Some api, Some input) /\
        (in_rain input = FNum 0 \/ in_rain input = FNum 1) /\
        exists h, in_time input = FNum (inject_Z h) /\ 0 <= h <= 23) /\
     (float_overflow <= Z.abs n ->
      get_formatted_data (run_callbacks cbs init).1 = Raises)).
Proof.
  intros Hc.
  destruct (run_callbacks_invariant cbs init Hc I) as (H1 & H2 & _).
  split; intros E; rewrite E in H2.
  - unfold get_formatted_data. by rewrite H2.
  - destruct H2 as [d Hd]; [by right |].
    unfold stored_well_typed in H1. rewrite Hd in H1.
    destruct (get_formatted_data_well_typed _ d Hd H1) as (n & Hn & Hret & Hraise).
    by exists d, n.
Qed.

Lemma formatted_data_invariant_witness :
  Forall clock_valid [OnConnect 0; data_message epoch "cahaya_analog:1800,hujan:ya";
                      OnDisconnect 0 false] /\
  exists api input,
    get_formatted_data
      (run_callbacks [OnConnect 0; data_message epoch "cahaya_analog:1800,hujan:ya";
                      OnDisconnect 0 false] init).1
    = Returns (Some api, Some input) /\
    (in_rain input = FNum 0 \/ in_rain input = FNum 1) /\
    exists h, in_time input = FNum (inject_Z h) /\ 0 <= h <= 23.
Proof.
  assert (Hc : Forall clock_valid
                 [OnConnect 0; data_message epoch "cahaya_analog:1800,hujan:ya";
                  OnDisconnect 0 false]) by (repeat constructor).
  split; [exact Hc |].
  destruct (proj2 (formatted_data_invariant _ Hc) eq_refl)
    as (d & n & Hd & Hn & Hret & _).
  apply Hret.
  vm_compute in Hd. injection Hd as <-.
  cbn [light] in Hn. injection Hn as <-.
  reflexivity.
Defined.

Lemma match_classes_app p : forall s rest,
  (length p <= String.length s)%nat ->
  match_classes p (s +:+ rest) =
  match match_classes p s with
  | Some (m, r) => Some (m, r +:+ rest)
  | None => None
  end.
Proof.
  induction p as [| [lo hi] p IH]; intros s rest Hlen; simpl; [done |].
  destruct s as [| c s]; simpl in *; [lia |].
  destruct (in_range lo hi c); [| done].
  rewrite IH by lia. by destruct (match_classes p s) as [[m r] |].
Qed.

Lemma match_directive_app d s rest :
  Forall (fun p => (length p <= String.length s)%nat) (alternatives d) ->
  match_directive d (s +:+ rest) = map (append_rest rest) (match_directive d s).
Proof.
  unfold match_directive. induction 1 as [| p ps Hp _ IH]; csimpl; [done |].
  rewrite match_classes_app by done.
  destruct (match_classes p s) as [[m r] |]; csimpl; [| done].
  destruct (int_of_string m); csimpl; [| done]. by rewrite IH.
Qed.

Lemma reads_range d text lo len n :
  forallb (reads d text) (seqZ lo len) = true ->
  lo <= n < lo + len ->
  exists tl, match_directive d (text n) = (n, EmptyString) :: tl.
Proof.
  intros Hall Hn. rewrite forallb_forall in Hall.
  specialize (Hall n). unfold reads in Hall.
  assert (Hin : In n (seqZ lo len)).
  { apply list_elem_of_In, elem_of_seqZ. lia. }
  apply Hall in Hin.
  destruct (match_directive d (text n)) as [| [v [| c r]] tl]; try discriminate.
  apply Z.eqb_eq in Hin. subst v. by exists tl.
Qed.

Lemma reads_year n : 0 <= n <= 9999 ->
  exists tl, match_directive DirY (four_digits n) = (n, EmptyString) :: tl.
Proof. intros H. apply (reads_range DirY four_digits 0 10000); [by vm_compute | lia]. Qed.

Lemma reads_month n : 1 <= n <= 12 ->
  exists tl, match_directive Dirm (two_digits n) = (n, EmptyString) :: tl.
Proof. intros H. apply (reads_range Dirm two_digits 1 12); [by vm_compute | lia]. Qed.

Lemma reads_day n : 1 <= n <= 31 ->
  exists tl, match_directive Dird (two_digits n) = (n, EmptyString) :: tl.
Proof. intros H. apply (reads_range Dird two_digits 1 31); [by vm_compute | lia]. Qed.

Lemma reads_hour n : 0 <= n <= 23 ->
  exists tl, match_directive DirH (two_digits n) = (n, EmptyString) :: tl.
Proof. intros H. apply (reads_range DirH two_digits 0 24); [by vm_compute | lia]. Qed.

Lemma reads_minute n : 0 <= n <= 59 ->
  exists tl, match_directive DirM (two_digits n) = (n, EmptyString) :: tl.
Proof. intros H. apply (reads_range DirM two_digits 0 60); [by vm_compute | lia]. Qed.

Lemma reads_second n : 0 <= n <= 59 ->
  exists tl, match_directive DirS (two_digits n) = (n, EmptyString) :: tl.
Proof. intros H. apply (reads_range DirS two_digits 0 60); [by vm_compute | lia]. Qed.

(** A format matches first with the first reading of its first directive. *)
Lemma match_format_dir d items s rest v vals r' tl tl' :
  Forall (fun p => (length p <= String.length s)%nat) (alternatives d) ->
  match_directive d s = (v, EmptyString) :: tl ->
  match_format items rest = (vals, r') :: tl' ->
  exists tl'', match_format (Dir d :: items) (s +:+ rest) = ((d, v) :: vals, r') :: tl''.
Proof.
  intros Hlen Hd Hi. cbn [match_format].
  rewrite match_directive_app, Hd by done. cbn [map flat_map append_rest fst snd].
  change (EmptyString +:+ rest) with rest. rewrite Hi. cbn [map fst snd app].
  eexists. reflexivity.
Qed.

Lemma isspace_digit_char n : 0 <= n <= 9 -> isspace (digit_char n) = false.
Proof.
  intros H.
  assert (Hall : forallb (fun k => negb (isspace (digit_char k))) (seqZ 0 10) = true)
    by (by vm_compute).
  rewrite forallb_forall in Hall. specialize (Hall n).
  apply negb_true_iff, Hall, list_elem_of_In, elem_of_seqZ. lia.
Qed.

Lemma append_cons c s t : String c s +:+ t = String c (s +:+ t).
Proof. reflexivity. Qed.

Lemma append_nil t : EmptyString +:+ t = t.
Proof. reflexivity. Qed.

Lemma match_format_space items n s :
  0 <= n <= 99 ->
  match_format (Ws :: items) (" " +:+ two_digits n +:+ s)
  = match_format items (two_digits n +:+ s).
Proof.
  intros H. cbn [match_format]. unfold two_digits.
  rewrite !append_cons, !append_nil. cbn [ws_rests].
  change (isspace " ") with true. cbv iota.
  rewrite isspace_digit_char by (Z.div_mod_to_equations; lia).
  cbn [rev app flat_map]. apply app_nil_r.
Qed.

Lemma first_match_nil s : first_match [] s [] s.
Proof. by exists []. Qed.

Lemma first_match_lit c items s vals r :
  first_match items s vals r -> first_match (Lit c :: items) (String c s) vals r.
Proof. intros [tl H]. exists tl. cbn [match_format]. by rewrite Ascii.eqb_refl. Qed.

Lemma first_match_space items n s vals r :
  0 <= n <= 99 ->
  first_match items (two_digits n +:+ s) vals r ->
  first_match (Ws :: items) (String " " (two_digits n +:+ s)) vals r.
Proof.
  intros Hn [tl H]. exists tl.
  change (String " " (two_digits n +:+ s)) with (" " +:+ two_digits n +:+ s).
  by rewrite match_format_space.
Qed.

Lemma first_match_two d items n s vals r :
  Forall (fun p => (length p <= 2)%nat) (alternatives d) ->
  (exists tl, match_directive d (two_digits n) = (n, EmptyString) :: tl) ->
  first_match items s vals r ->
  first_match (Dir d :: items) (two_digits n +:+ s) ((d, n) :: vals) r.
Proof.
  intros Hlen [tl Hd] [tl' Hi].
  by apply (match_format_dir d items (two_digits n) s n vals r tl tl').
Qed.

Lemma first_match_four items n s vals r :
  (exists tl, match_directive DirY (four_digits n) = (n, EmptyString) :: tl) ->
  first_match items s vals r ->
  first_match (Dir DirY :: items) (four_digits n +:+ s) ((DirY, n) :: vals) r.
Proof.
  intros [tl Hd] [tl' Hi].
  apply (match_format_dir DirY items (four_digits n) s n vals r tl tl'); [| done | done].
  repeat constructor.
Qed.

Lemma alternatives_short d : d <> DirY -> Forall (fun p => (length p <= 2)%nat) (alternatives d).
Proof. destruct d; intros H; try done; repeat constructor. Qed.

Lemma append_empty_r s : s +:+ EmptyString = s.
Proof. induction s as [| c s IH]; [done |]. by rewrite append_cons, IH. Qed.

Lemma days_in_month_le y m : days_in_month y m <= 31.
Proof. unfold days_in_month. repeat case_match; lia. Qed.

Lemma valid_in_bounds d : valid d = true -> in_bounds d.
Proof.
  unfold valid, between. intros H.
  repeat (apply andb_prop in H as [H ?]).
  pose proof (days_in_month_le (year d) (month d)).
  split; lia.
Qed.

Lemma make_of_valid d :
  valid d = true -> microsecond d = 0 ->
  make (year d) (month d) (day d) (hour d) (minute d) (second d) = Some d.
Proof.
  intros Hv Hm. unfold make. destruct d as [y m dd H M S us]. simpl in *. subst us.
  by rewrite Hv.
Qed.

Ltac first_match_steps Hb :=
  repeat first
    [ apply first_match_nil
    | apply first_match_lit
    | apply first_match_space; [destruct Hb; lia |]
    | apply first_match_four; [apply reads_year; destruct Hb; lia |]
    | apply first_match_two;
      [ apply alternatives_short; discriminate
      | first [ apply reads_month | apply reads_day | apply reads_hour
              | apply reads_minute | apply reads_second ]; destruct Hb; lia
      | ] ].

Lemma clock_text_end d :
  clock_text d =
  two_digits (hour d) +:+ String ":" (two_digits (minute d) +:+
    String ":" (two_digits (second d) +:+ EmptyString)).
Proof. unfold clock_text. by rewrite append_empty_r. Qed.

Lemma clock_text_app d s :
  clock_text d +:+ s =
  two_digits (hour d) +:+ String ":" (two_digits (minute d) +:+
    String ":" (two_digits (second d) +:+ s)).
Proof. reflexivity. Qed.

Lemma strptime_layout_1 d :
  valid d = true -> microsecond d = 0 ->
  strptime (render YmdHMS d) "%Y-%m-%d %H:%M:%S" = Some d.
Proof.
  intros Hv Hm. pose proof (valid_in_bounds d Hv) as Hb.
  unfold strptime. change (compile "%Y-%m-%d %H:%M:%S") with (formats_items !! 0%nat).
  cbn [formats_items lookup list_lookup].
  assert (Hfm : first_match
                  [Dir DirY; Lit "-"; Dir Dirm; Lit "-"; Dir Dird; Ws; Dir DirH; Lit ":";
                   Dir DirM; Lit ":"; Dir DirS] (render YmdHMS d)
                  [(DirY, year d); (Dirm, month d); (Dird, day d); (DirH, hour d);
                   (DirM, minute d); (DirS, second d)] EmptyString).
  { unfold render. rewrite clock_text_end.
    change ("-" +:+ ?x) with (String "-" x). change (" " +:+ ?x) with (String " " x).
    first_match_steps Hb. }
  destruct Hfm as [tl ->]. cbn [field directive_eqb]. by apply make_of_valid.
Qed.

Lemma strptime_layout_2 d :
  valid d = true -> microsecond d = 0 ->
  strptime (render dmYHMS d) "%d/%m/%Y %H:%M:%S" = Some d.
Proof.
  intros Hv Hm. pose proof (valid_in_bounds d Hv) as Hb.
  unfold strptime. change (compile "%d/%m/%Y %H:%M:%S") with (formats_items !! 1%nat).
  cbn [formats_items lookup list_lookup].
  assert (Hfm : first_match
                  [Dir Dird; Lit "/"; Dir Dirm; Lit "/"; Dir DirY; Ws; Dir DirH; Lit ":";
                   Dir DirM; Lit ":"; Dir DirS] (render dmYHMS d)
                  [(Dird, day d); (Dirm, month d); (DirY, year d); (DirH, hour d);
                   (DirM, minute d); (DirS, second d)] EmptyString).
  { unfold render. rewrite clock_text_end.
    change ("/" +:+ ?x) with (String "/" x). change (" " +:+ ?x) with (String " " x).
    first_match_steps Hb. }
  destruct Hfm as [tl ->]. cbn [field directive_eqb]. by apply make_of_valid.
Qed.

Lemma strptime_layout_3 d :
  valid d = true -> microsecond d = 0 ->
  strptime (render HMSdmY d) "%H:%M:%S %d-%m-%Y" = Some d.
Proof.
  intros Hv Hm. pose proof (valid_in_bounds d Hv) as Hb.
  unfold strptime. change (compile "%H:%M:%S %d-%m-%Y") with (formats_items !! 2%nat).
  cbn [formats_items lookup list_lookup].
  assert (Hfm : first_match
                  [Dir DirH; Lit ":"; Dir DirM; Lit ":"; Dir DirS; Ws; Dir Dird; Lit "-";
                   Dir Dirm; Lit "-"; Dir DirY] (render HMSdmY d)
                  [(DirH, hour d); (DirM, minute d); (DirS, second d); (Dird, day d);
                   (Dirm, month d); (DirY, year d)] EmptyString).
  { unfold render. rewrite clock_text_app.
    rewrite <- (append_empty_r (four_digits (year d))).
    change ("-" +:+ ?x) with (String "-" x). change (" " +:+ ?x) with (String " " x).
    first_match_steps Hb. }
  destruct Hfm as [tl ->]. cbn [field directive_eqb]. by apply make_of_valid.
Qed.

Lemma strptime_layout_4 d :
  valid d = true -> microsecond d = 0 ->
  strptime (render YmdTHMS d) "%Y-%m-%dT%H:%M:%S" = Some d.
Proof.
  intros Hv Hm. pose proof (valid_in_bounds d Hv) as Hb.
  unfold strptime. change (compile "%Y-%m-%dT%H:%M:%S") with (formats_items !! 3%nat).
  cbn [formats_items lookup list_lookup].
  assert (Hfm : first_match
                  [Dir DirY; Lit "-"; Dir Dirm; Lit "-"; Dir Dird; Lit "T"; Dir DirH; Lit ":";
                   Dir DirM; Lit ":"; Dir DirS] (render YmdTHMS d)
                  [(DirY, year d); (Dirm, month d); (Dird, day d); (DirH, hour d);
                   (DirM, minute d); (DirS, second d)] EmptyString).
  { unfold render. rewrite clock_text_end.
    change ("-" +:+ ?x) with (String "-" x). change ("T" +:+ ?x) with (String "T" x).
    first_match_steps Hb. }
  destruct Hfm as [tl ->]. cbn [field directive_eqb]. by apply make_of_valid.
Qed.

(** What a sequence of classes leaves unread. *)
Lemma match_classes_rest p : forall s m r,
  match_classes p s = Some (m, r) -> s = m +:+ r /\ String.length m = length p.
Proof.
  induction p as [| [lo hi] p IH]; intros s m r H; simpl in H.
  - by injection H as <- <-.
  - destruct s as [| c s]; [discriminate |].
    destruct (in_range lo hi c); [| discriminate].
    destruct (match_classes p s) as [[m' r'] |] eqn:E; [| discriminate].
    injection H as <- <-. destruct (IH s m' r' E) as [-> Hl].
    split; [done | simpl; by rewrite Hl].
Qed.

Lemma match_directive_rest d s v r :
  (v, r) ∈ match_directive d s ->
  exists p m, p ∈ alternatives d /\ s = m +:+ r /\ String.length m = length p.
Proof.
  unfold match_directive. intros H.
  apply list_elem_of_omap in H as (p & Hp & Hm).
  destruct (match_classes p s) as [[m r'] |] eqn:E; [| discriminate].
  destruct (int_of_string m); [| discriminate]. injection Hm as <- <-.
  exists p, m. split; [done |]. by apply match_classes_rest.
Qed.

Lemma flat_map_nil {A B} (f : A -> list B) (l : list A) :
  (forall x, x ∈ l -> f x = []) -> flat_map f l = [].
Proof.
  induction l as [| x l IH]; intros H; simpl; [done |].
  rewrite (H x) by (by left). apply IH. intros y Hy. apply H. by right.
Qed.

(** A one- or two-character directive fails when the rest of the format fails
    on both possible rests. *)
Lemma match_format_dir_nil d items c1 c2 s :
  d <> DirY ->
  match_format items (String c2 s) = [] ->
  match_format items s = [] ->
  match_format (Dir d :: items) (String c1 (String c2 s)) = [].
Proof.
  intros Hd H1 H2. cbn [match_format]. apply flat_map_nil. intros [v r] Hin.
  apply match_directive_rest in Hin as (p & m & Hp & Hs & Hl).
  assert (Hlen : (1 <= length p <= 2)%nat).
  { destruct d; try done; unfold alternatives in Hp;
      repeat (apply elem_of_cons in Hp as [-> | Hp]; [simpl; lia |]);
      by apply elem_of_nil in Hp. }
  cbn [fst snd].
  destruct m as [| m1 [| m2 [| m3 m]]]; simpl in Hl; try lia;
    rewrite !append_cons, append_nil in Hs.
  - injection Hs as _ <-. by rewrite H1.
  - injection Hs as _ _ <-. by rewrite H2.
Qed.

Lemma match_format_lit_nil c items x s :
  Ascii.eqb (lower_char x) (lower_char c) = false ->
  match_format (Lit c :: items) (String x s) = [].
Proof. intros H. cbn [match_format]. by rewrite H. Qed.

Lemma match_format_ws_nil items x s :
  isspace x = false -> match_format (Ws :: items) (String x s) = [].
Proof. intros H. cbn [match_format ws_rests]. by rewrite H. Qed.

Lemma match_directive_year_nil c1 c2 c3 s :
  isdigit c3 = false ->
  match_directive DirY (String c1 (String c2 (String c3 s))) = [].
Proof.
  intros H. unfold match_directive, alternatives. csimpl.
  change (in_range (48 + 0) (48 + 9) c3) with (isdigit c3). rewrite H.
  by repeat case_match.
Qed.

Lemma match_format_year_nil items c1 c2 c3 s :
  isdigit c3 = false ->
  match_format (Dir DirY :: items) (String c1 (String c2 (String c3 s))) = [].
Proof. intros H. cbn [match_format]. by rewrite match_directive_year_nil. Qed.

Lemma digit_char_apart c k :
  forallb (apart c) (seqZ 0 10) = true -> 0 <= k <= 9 ->
  Ascii.eqb (lower_char (digit_char k)) (lower_char c) = false.
Proof.
  intros Hall Hk. rewrite forallb_forall in Hall. specialize (Hall k).
  apply negb_true_iff, Hall, list_elem_of_In, elem_of_seqZ. lia.
Qed.

Lemma strptime_nil s fmt items :
  compile fmt = Some items -> match_format items s = [] -> strptime s fmt = None.
Proof. intros Hc Hm. unfold strptime. by rewrite Hc, Hm. Qed.

Lemma match_format_lit_eq c items s :
  match_format (Lit c :: items) (String c s) = match_format items s.
Proof. cbn [match_format]. by rewrite Ascii.eqb_refl. Qed.

Lemma match_format_dir_eq d items s :
  match_format (Dir d :: items) s =
  flat_map (fun vr : Z * string =>
              map (fun m : list (directive * Z) * string => ((d, vr.1) :: m.1, m.2))
                  (match_format items vr.2))
           (match_directive d s).
Proof. reflexivity. Qed.

Lemma match_directive_year_single s v r tl :
  match_directive DirY s = (v, r) :: tl -> tl = [].
Proof.
  unfold match_directive, alternatives. csimpl.
  intros Hsingle. repeat case_match; simplify_eq; done.
Qed.

Ltac digit_bound Hb := destruct Hb; Z.div_mod_to_equations; lia.

Ltac digit_side Hb :=
  first
    [ reflexivity
    | apply digit_char_apart; [by vm_compute | digit_bound Hb]
    | apply isspace_digit_char; digit_bound Hb ].

Ltac spell :=
  unfold render, clock_text, two_digits, four_digits;
  rewrite ?append_cons, ?append_nil.

Lemma layout_2_not_format_1 d :
  strptime (render dmYHMS d) "%Y-%m-%d %H:%M:%S" = None.
Proof.
  eapply strptime_nil; [by vm_compute |]. spell.
  by apply match_format_year_nil.
Qed.

Lemma layout_3_not_format_1 d :
  strptime (render HMSdmY d) "%Y-%m-%d %H:%M:%S" = None.
Proof.
  eapply strptime_nil; [by vm_compute |]. spell.
  by apply match_format_year_nil.
Qed.

Lemma layout_3_not_format_2 d :
  in_bounds d -> strptime (render HMSdmY d) "%d/%m/%Y %H:%M:%S" = None.
Proof.
  intros Hb. eapply strptime_nil; [by vm_compute |]. spell.
  apply match_format_dir_nil; [done | |]; apply match_format_lit_nil; digit_side Hb.
Qed.

Lemma layout_4_not_format_2 d :
  in_bounds d -> strptime (render YmdTHMS d) "%d/%m/%Y %H:%M:%S" = None.
Proof.
  intros Hb. eapply strptime_nil; [by vm_compute |]. spell.
  apply match_format_dir_nil; [done | |]; apply match_format_lit_nil; digit_side Hb.
Qed.

Lemma layout_4_not_format_3 d :
  in_bounds d -> strptime (render YmdTHMS d) "%H:%M:%S %d-%m-%Y" = None.
Proof.
  intros Hb. eapply strptime_nil; [by vm_compute |]. spell.
  apply match_format_dir_nil; [done | |]; apply match_format_lit_nil; digit_side Hb.
Qed.

Lemma layout_4_not_format_1 d :
  in_bounds d -> strptime (render YmdTHMS d) "%Y-%m-%d %H:%M:%S" = None.
Proof.
  intros Hb. eapply strptime_nil; [by vm_compute |].
  unfold render.
  destruct (reads_year (year d)) as [tl Hy]; [destruct Hb; lia |].
  pose proof (match_directive_year_single _ _ _ _ Hy) as ->.
  rewrite match_format_dir_eq.
  rewrite match_directive_app, Hy by repeat constructor.
  cbn [map flat_map append_rest fst snd]. rewrite append_nil, app_nil_r.
  unfold clock_text, two_digits. rewrite ?append_cons, ?append_nil.
  rewrite match_format_lit_eq.
  rewrite match_format_dir_nil; [done | done | |].
  - apply match_format_lit_nil; digit_side Hb.
  - rewrite match_format_lit_eq.
    apply match_format_dir_nil; [done | |]; apply match_format_ws_nil; digit_side Hb.
Qed.

(** A valid timestamp written in any of the four literal layouts is read
    back, whatever the clock. *)
Lemma parse_rtc_time_layout (l : layout) (d now : datetime) :
  valid d = true -> microsecond d = 0 ->
  parse_rtc_time now (render l d) = (d, []).
Proof.
  intros Hv Hm. pose proof (valid_in_bounds d Hv) as Hb.
  unfold parse_rtc_time, formats_to_try. cbn [try_formats].
  destruct l.
  - by rewrite strptime_layout_1.
  - by rewrite layout_2_not_format_1, strptime_layout_2.
  - by rewrite layout_3_not_format_1, layout_3_not_format_2, strptime_layout_3.
  - by rewrite layout_4_not_format_1, layout_4_not_format_2, layout_4_not_format_3,
         strptime_layout_4.
Qed.

Lemma try_formats_first_layout s : try_formats s formats_to_try = first_layout_match s.
Proof.
  unfold formats_to_try, first_layout_match. cbn [try_formats].
  by repeat case_match.
Qed.

Lemma render_nonempty l t : exists c s, render l t = String c s.
Proof. destruct l; unfold render, clock_text, two_digits, four_digits;
         rewrite !append_cons; by eexists _, _. Qed.

(** A record stamped by the clock equals the record of a payload that
    carries the same time: nothing in the record tells them apart. *)
Lemma clock_fallback_not_flagged :
  latest_data (process_sensor_data epoch "suhu:30" init).1
  = latest_data (process_sensor_data new_year "suhu:30,waktu:2025-06-24 21:28:44" init).1 /\
  In (Log WarnNoRtc) (process_sensor_data epoch "suhu:30" init).2 /\
  (process_sensor_data new_year "suhu:30,waktu:2025-06-24 21:28:44" init).2
  = [Log InfoSensorUpdated].
Proof. split; [by vm_compute | split; [left; reflexivity | by vm_compute]]. Qed.

(** C9, as the code has it: the timestamp is the first match among the four
    layouts in order; when the raw string is absent, empty or matches none, it
    is the clock, and a warning is logged; the record itself carries no mark;
    the hour is that of the timestamp; a timestamp in a literal layout is read
    back. *)
Theorem timestamp_parsing (now : datetime) (payload : string) (self : MQTTClient) :
  exists d w,
    latest_data (process_sensor_data now payload self).1 = Some d /\
    (process_sensor_data now payload self).2
    = warnings (parse_pairs payload) ++ w ++ [Log InfoSensorUpdated] /\
    match rtc_time_str (parse_pairs payload) with
    | Some (String c s) =>
        match first_layout_match (String c s) with
        | Some t => last_update d = t /\ w = []
        | None => last_update d = now /\ w = [Log (WarnInvalidRtc (String c s))]
        end
    | _ => last_update d = now /\ w = [Log WarnNoRtc]
    end /\
    current_hour d = hour (last_update d) /\
    (forall l t, valid t = true -> microsecond t = 0 ->
                 rtc_time_str (parse_pairs payload) = Some (render l t) ->
                 last_update d = t).
Proof.
  unfold process_sensor_data, make_record.
  destruct (timestamp now (rtc_time_str (parse_pairs payload))) as [lu w] eqn:E.
  eexists _, w. cbn [fst snd latest_data set_latest_data last_update current_hour].
  split; [reflexivity |]. split; [reflexivity |].
  unfold timestamp, parse_rtc_time in E.
  split; [| split; [reflexivity |]].
  - destruct (rtc_time_str (parse_pairs payload)) as [[| c s] |].
    + by injection E as <- <-.
    + rewrite try_formats_first_layout in E.
      destruct (first_layout_match (String c s)); by injection E as <- <-.
    + by injection E as <- <-.
  - intros l t Hv Hm Hr. rewrite Hr in E.
    destruct (render_nonempty l t) as (c & s & Hs).
    pose proof (parse_rtc_time_layout l t now Hv Hm) as Hp.
    unfold parse_rtc_time in Hp. rewrite Hs in E, Hp. rewrite E in Hp.
    by injection Hp as -> _.
Qed.

Lemma timestamp_parsing_witness :
  exists d,
    latest_data (process_sensor_data new_year "waktu:24/06/2025 21:28:44" init).1 = Some d /\
    last_update d = epoch.
Proof.
  destruct (timestamp_parsing new_year "waktu:24/06/2025 21:28:44" init)
    as (d & w & Hd & _ & _ & _ & Hr).
  exists d. split; [exact Hd |].
  apply (Hr dmYHMS epoch); reflexivity.
Defined.

(** ** The control path, the callbacks and the timestamp text *)

Lemma published_app t1 t2 : published (t1 ++ t2) = published t1 ++ published t2.
Proof. unfold published. apply omap_app. Qed.

Lemma warnings_process_pair_published acc pair :
  published (warnings acc) = [] -> published (warnings (process_pair acc pair)) = [].
Proof.
  intros H. unfold process_pair.
  destruct (contains ":" pair); [| done].
  destruct (split1 ":" pair) as [key value].
  repeat (case_match; simpl; try done);
    rewrite published_app, H; reflexivity.
Qed.

Lemma warnings_parse_tokens_published tokens : forall acc,
  published (warnings acc) = [] ->
  published (warnings (fold_left process_pair tokens acc)) = [].
Proof.
  induction tokens as [| p tokens IH]; intros acc H; simpl; [done |].
  apply IH. by apply warnings_process_pair_published.
Qed.

Lemma process_sensor_data_published now payload self :
  published (process_sensor_data now payload self).2 = [].
Proof.
  unfold process_sensor_data, make_record.
  assert (Ht : published (timestamp now (rtc_time_str (parse_pairs payload))).2 = []).
  { unfold timestamp, parse_rtc_time. by repeat case_match. }
  destruct (timestamp now _) as [d w]. simpl in *.
  rewrite !published_app, Ht.
  unfold parse_pairs, parse_tokens. rewrite warnings_parse_tokens_published; done.
Qed.

Lemma dispatch_published cb self : published (dispatch cb self).2 = [].
Proof.
  destruct cb as [now msg | rc | rc raises]; simpl.
  - unfold on_message. destruct (payload msg); [| done].
    repeat (case_match; try done). apply process_sensor_data_published.
  - unfold on_connect. case_match; done.
  - unfold on_disconnect, connect. simpl. repeat (case_match; simplify_eq; try done).
Qed.

Lemma run_callbacks_published cbs : forall self,
  published (run_callbacks cbs self).2 = [].
Proof.
  induction cbs as [| cb cbs IH]; intros self; simpl; [done |].
  pose proof (dispatch_published cb self) as H1.
  destruct (dispatch cb self) as [self1 t1].
  specialize (IH self1). destruct (run_callbacks cbs self1) as [self2 t2].
  simpl in *. by rewrite published_app, H1, IH.
Qed.

Lemma wait_confirmation_published action window : forall self,
  published (wait_confirmation action window self).2 = [].
Proof.
  induction window as [| cbs window IH]; intros self; simpl; [done |].
  pose proof (run_callbacks_published cbs self) as H1.
  destruct (run_callbacks cbs self) as [self1 t1]. simpl in H1.
  case_bool_decide.
  - simpl. by rewrite published_app, H1.
  - specialize (IH self1).
    destruct (wait_confirmation action window self1) as [[ok self2] t2].
    simpl in *. by rewrite published_app, H1, IH.
Qed.

Lemma ensure_connected_published env self :
  published (ensure_connected env self).2 = [].
Proof.
  unfold ensure_connected, connect.
  destruct (negb (is_connected self)); [| done].
  destruct (connect_raises env); [done |].
  pose proof (run_callbacks_published (during_connect env) (set_is_connected self true)) as H.
  destruct (run_callbacks _ _) as [s t]. simpl in H.
  destruct (negb (is_connected s)); simpl; rewrite ?published_app, H; done.
Qed.

Lemma publish_and_wait_published action env self :
  published (publish_and_wait action env self).2 = [("jemuran/control", action, 1, false)].
Proof.
  unfold publish_and_wait. destruct (publish env) as [rc |]; [| done].
  destruct (rc =? MQTT_ERR_SUCCESS); [| done].
  pose proof (wait_confirmation_published action (window env) self) as H.
  destruct (wait_confirmation action (window env) self) as [[ok s] t]. simpl in *.
  rewrite published_app, H. by destruct ok.
Qed.

Lemma attempt_body_published action attempt max_retries env self :
  published (attempt_body action attempt max_retries env self).2 = [] \/
  published (attempt_body action attempt max_retries env self).2
  = [("jemuran/control", action, 1, false)].
Proof.
  unfold attempt_body.
  pose proof (run_callbacks_published (before_attempt env) self) as H0.
  destruct (run_callbacks (before_attempt env) self) as [s0 t0]. simpl in H0.
  pose proof (ensure_connected_published env s0) as H1.
  destruct (ensure_connected env s0) as [[ready s1] t1]. simpl in H1.
  destruct ready.
  - pose proof (publish_and_wait_published action env s1) as H2.
    destruct (publish_and_wait action env s1) as [[ok s2] t2]. simpl in *.
    right. by rewrite !published_app, H0, H1, H2.
  - left. simpl. by rewrite !published_app, H0, H1.
Qed.

Lemma attempts_published action max_retries envs remaining : forall attempt self,
  exists k, (k <= remaining)%nat /\
    published (attempts action max_retries remaining attempt envs self).2
    = replicate k ("jemuran/control", action, 1, false).
Proof.
  induction remaining as [| remaining IH]; intros attempt self; simpl.
  { exists 0%nat. done. }
  pose proof (attempt_body_published action attempt max_retries (envs attempt) self) as H1.
  destruct (attempt_body action attempt max_retries (envs attempt) self) as [[ok s1] t1].
  simpl in H1. destruct ok.
  - simpl. destruct H1 as [-> | ->]; [exists 0%nat | exists 1%nat]; split; (lia || done).
  - destruct (IH (S attempt) s1) as (k & Hk & Hp).
    destruct (attempts action max_retries remaining (S attempt) envs s1) as [[ok' s2] t2].
    simpl in *. rewrite published_app, Hp.
    destruct H1 as [-> | ->]; [exists k | exists (S k)]; split; (lia || done).
Qed.


Lemma wait_confirmation_status action window : forall self,
  (wait_confirmation action window self).1.1 = true ->
  servo_status (wait_confirmation action window self).1.2 = Some action.
Proof.
  induction window as [| cbs window IH]; intros self; simpl; [done |].
  destruct (run_callbacks cbs self) as [self1 t1].
  case_bool_decide as Hs; [done |].
  specialize (IH self1).
  by destruct (wait_confirmation action window self1) as [[ok self2] t2].
Qed.

Lemma publish_and_wait_status action env self :
  (publish_and_wait action env self).1.1 = true ->
  servo_status (publish_and_wait action env self).1.2 = Some action.
Proof.
  unfold publish_and_wait. destruct (publish env) as [rc |]; [| done].
  destruct (rc =? MQTT_ERR_SUCCESS); [| done].
  pose proof (wait_confirmation_status action (window env) self) as H.
  by destruct (wait_confirmation action (window env) self) as [[ok s] t].
Qed.

Lemma attempt_body_status action attempt max_retries env self :
  (attempt_body action attempt max_retries env self).1.1 = true ->
  servo_status (attempt_body action attempt max_retries env self).1.2 = Some action.
Proof.
  unfold attempt_body.
  destruct (run_callbacks (before_attempt env) self) as [s0 t0].
  destruct (ensure_connected env s0) as [[ready s1] t1].
  destruct ready; [| done].
  pose proof (publish_and_wait_status action env s1) as H.
  by destruct (publish_and_wait action env s1) as [[ok s2] t2].
Qed.

Lemma attempts_status action max_retries envs remaining : forall attempt self,
  (attempts action max_retries remaining attempt envs self).1.1 = true ->
  servo_status (attempts action max_retries remaining attempt envs self).1.2 = Some action.
Proof.
  induction remaining as [| remaining IH]; intros attempt self; simpl; [done |].
  pose proof (attempt_body_status action attempt max_retries (envs attempt) self) as H1.
  destruct (attempt_body action attempt max_retries (envs attempt) self) as [[ok s1] t1].
  destruct ok; [by auto |].
  specialize (IH (S attempt) s1).
  by destruct (attempts action max_retries remaining (S attempt) envs s1) as [[ok' s2] t2].
Qed.




Lemma dispatch_keeps_status cb self :
  sets_status cb = false -> servo_status (dispatch cb self).1 = servo_status self.
Proof.
  destruct cb as [now msg | rc | rc raises]; simpl.
  - unfold on_message. destruct (payload msg) as [p |]; [| done].
    destruct (String.eqb (topic msg) "jemuran/control"); [done |].
    destruct (String.eqb (topic msg) "jemuran/status"); [done |].
    intros _. destruct (String.eqb (topic msg) "jemuran/data"); [| done].
    apply process_sensor_data_servo_status.
  - intros _. unfold on_connect. by destruct (rc =? 0).
  - intros _. unfold on_disconnect, connect. simpl. by repeat case_match; simplify_eq.
Qed.

Lemma run_callbacks_app cbs1 cbs2 self :
  (run_callbacks (cbs1 ++ cbs2) self).1
  = (run_callbacks cbs2 (run_callbacks cbs1 self).1).1.
Proof.
  revert self. induction cbs1 as [| cb cbs1 IH]; intros self; simpl; [done |].
  destruct (dispatch cb self) as [s1 t1]. specialize (IH s1).
  destruct (run_callbacks (cbs1 ++ cbs2) s1) as [s2 t2].
  destruct (run_callbacks cbs1 s1) as [s3 t3]. simpl in *. done.
Qed.

Lemma run_callbacks_keeps_status cbs : forall self,
  forallb (fun cb => negb (sets_status cb)) cbs = true ->
  servo_status (run_callbacks cbs self).1 = servo_status self.
Proof.
  induction cbs as [| cb cbs IH]; intros self H; simpl in *; [done |].
  apply andb_prop in H as [H1 H2]. apply negb_true_iff in H1.
  pose proof (dispatch_keeps_status cb self H1) as Hd.
  destruct (dispatch cb self) as [s1 t1]. specialize (IH s1 H2).
  destruct (run_callbacks cbs s1) as [s2 t2]. simpl in *. congruence.
Qed.







Lemma fills_range w text lo len n :
  forallb (fills w text) (seqZ lo len) = true ->
  lo <= n < lo + len -> zfill w n = text n.
Proof.
  intros Hall Hn. rewrite forallb_forall in Hall.
  apply String.eqb_eq, Hall, list_elem_of_In, elem_of_seqZ. lia.
Qed.

Lemma zfill_two n : 0 <= n <= 99 -> zfill 2 n = two_digits n.
Proof.
  intros H. apply (fills_range 2 two_digits 0 100); [by vm_compute | lia].
Qed.

Lemma zfill_four n : 0 <= n <= 9999 -> zfill 4 n = four_digits n.
Proof.
  intros H. apply (fills_range 4 four_digits 0 10000); [by vm_compute | lia].
Qed.

Lemma isoformat_render d :
  valid d = true -> microsecond d = 0 -> isoformat d = render YmdTHMS d.
Proof.
  intros Hv Hm. destruct (valid_in_bounds d Hv) as [Hy Hmo Hd HH HM HS].
  unfold isoformat, render, clock_text. rewrite Hm. cbn [Z.eqb].
  rewrite zfill_four by lia. rewrite !zfill_two by lia.
  by rewrite append_empty_r.
Qed.




(** ** The tokens that reach the record *)

Lemma mem_elem_of k l : mem k l = true <-> k ∈ l.
Proof.
  unfold mem. induction l as [| x l IH]; simpl.
  - split; [discriminate | by intros ?%elem_of_nil].
  - rewrite orb_true_iff, IH, elem_of_cons. split.
    + intros [H | H]; [left; by apply String.eqb_eq | by right].
    + intros [-> | H]; [left; apply String.eqb_refl | by right].
Qed.

Lemma irrelevant_keeps acc pair :
  relevant pair = false -> same_record_locals (process_pair acc pair) acc.
Proof.
  intros H. split.
  - intros K HK. apply process_pair_other. intros Hk.
    unfold relevant in H. rewrite Hk in H.
    apply not_true_iff_false in H. apply H, mem_elem_of. by right.
  - unfold relevant, token_key in H. unfold process_pair.
    destruct (contains ":" pair); [| done].
    destruct (split1 ":" pair) as [key value]. simpl in H.
    destruct (String.eqb_spec (lower (strip key)) "waktu") as [E | E].
    + rewrite E in H. discriminate.
    + repeat (case_match; simpl; try done).
Qed.

Lemma relevant_step acc acc' pair :
  same_record_locals acc acc' ->
  same_record_locals (process_pair acc pair) (process_pair acc' pair).
Proof.
  intros [Hd Hr]. unfold process_pair, same_record_locals.
  destruct (contains ":" pair); [| done].
  destruct (split1 ":" pair) as [key value].
  repeat (case_match; simpl; try done);
    (split; [| done]); intros K HK;
    (destruct (decide (lower (strip key) = K)) as [-> | Hne];
     [by rewrite !lookup_insert_eq | rewrite !lookup_insert_ne by done; by apply Hd]).
Qed.

Lemma same_record_locals_trans p q r :
  same_record_locals p q -> same_record_locals q r -> same_record_locals p r.
Proof.
  intros [H1 H2] [H3 H4]. split; [| congruence].
  intros K HK. rewrite H1 by done. by apply H3.
Qed.

Lemma parse_relevant tokens : forall acc acc',
  same_record_locals acc acc' ->
  same_record_locals (fold_left process_pair tokens acc)
                     (fold_left process_pair (List.filter relevant tokens) acc').
Proof.
  induction tokens as [| p tokens IH]; intros acc acc' H; simpl; [done |].
  destruct (relevant p) eqn:E; simpl.
  - by apply IH, relevant_step.
  - apply IH. eapply same_record_locals_trans; [by apply irrelevant_keeps | done].
Qed.

Lemma make_record_locals now p q :
  same_record_locals p q -> (make_record now p).1 = (make_record now q).1.
Proof.
  intros [Hd Hr]. unfold make_record. rewrite Hr.
  destruct (timestamp now (rtc_time_str q)) as [lu w]. cbn [fst].
  rewrite !get_temperature, !get_humidity, !get_light, !get_rain.
  rewrite !Hd by set_solver. reflexivity.
Qed.


End MqttProps.

(** * Properties of fuzzy_logic.py *)

Module FuzzyProps.
Import Fuzzy FuzzySpec.
Local Open Scope Q_scope.

Lemma Qle_bool_true x y : Qle_bool x y = true -> x <= y.
Proof. apply Qle_bool_iff. Qed.

Lemma Qle_bool_false x y : Qle_bool x y = false -> y < x.
Proof.
  intros H. apply Qnot_le_lt. intros Hle. apply Qle_bool_iff in Hle. congruence.
Qed.

Lemma Qlt_bool_false x y : Qlt_bool x y = false -> y <= x.
Proof.
  unfold Qlt_bool. intros H. apply Qle_bool_true. destruct (Qle_bool y x); [done | discriminate].
Qed.

Lemma convex_step x0 x1 x y0 y1 :
  x0 <= x -> x <= x1 -> unit_interval y0 -> unit_interval y1 ->
  unit_interval (y0 + (x - x0) * (y1 - y0) / (x1 - x0)).
Proof.
  intros H0 H1 [Hy0 Hy0'] [Hy1 Hy1'].
  destruct (Qeq_dec x0 x1) as [He | Hne].
  - assert (Hz : (x - x0) * (y1 - y0) / (x1 - x0) == 0).
    { assert (Hx : x - x0 == 0) by lra. rewrite Hx. unfold Qdiv. ring. }
    unfold unit_interval. rewrite Hz. lra.
  - assert (Hpos : 0 < x1 - x0) by lra.
    set (l := (x - x0) / (x1 - x0)).
    assert (Hl0 : 0 <= l).
    { unfold l. apply Qle_shift_div_l; [done | lra]. }
    assert (Hl1 : l <= 1).
    { unfold l. apply Qle_shift_div_r; [done | lra]. }
    assert (Heq : y0 + (x - x0) * (y1 - y0) / (x1 - x0) == y0 + l * (y1 - y0)).
    { unfold l. field. lra. }
    unfold unit_interval. rewrite Heq. split; nra.
Qed.

Lemma interp_from_bounds xs : forall ys x0 y0 x,
  x0 <= x -> unit_interval y0 -> Forall unit_interval ys ->
  unit_interval (interp_from x0 y0 xs ys x).
Proof.
  induction xs as [| x1 xs IH]; intros ys x0 y0 x Hx Hy0 Hys; simpl.
  - destruct (Qeq_bool x x0); [done | split; lra].
  - destruct ys as [| y1 ys].
    + destruct (Qeq_bool x x0); [done | split; lra].
    + inversion Hys as [| ? ? Hy1 Hys']; subst.
      destruct (Qle_bool x x1) eqn:E.
      * apply convex_step; auto. by apply Qle_bool_true.
      * apply IH; auto. apply Qlt_le_weak. by apply Qle_bool_false.
Qed.

Lemma interp_membership_bounds xs ys x :
  Forall unit_interval ys -> unit_interval (interp_membership xs ys x).
Proof.
  intros Hys. unfold interp_membership.
  destruct xs as [| x0 xs]; [split; lra |].
  destruct ys as [| y0 ys]; [split; lra |].
  inversion Hys; subst.
  destruct (Qlt_bool x x0) eqn:E; [split; lra |].
  apply interp_from_bounds; auto. by apply Qlt_bool_false.
Qed.

Lemma in_unit_spec ys : forallb in_unit ys = true -> Forall unit_interval ys.
Proof.
  intros H. apply List.Forall_forall. intros y Hy.
  rewrite forallb_forall in H. specialize (H y Hy).
  unfold in_unit in H. apply andb_prop in H as [H1 H2].
  split; by apply Qle_bool_true.
Qed.

Lemma mf_bounds t : Forall unit_interval (mf t).
Proof. apply in_unit_spec. destruct t; vm_compute; reflexivity. Qed.

Lemma fuzzify_bounds i t : unit_interval (fuzzify i t).
Proof. unfold fuzzify. apply interp_membership_bounds, mf_bounds. Qed.

Lemma strength_bounds m a :
  (forall t, unit_interval (m t)) -> unit_interval (strength m a).
Proof.
  intros Hm. induction a as [t | a IHa b IHb | a IHa b IHb]; simpl.
  - apply Hm.
  - destruct IHa, IHb. split.
    + apply Q.min_glb; auto.
    + eapply Qle_trans; [apply Q.le_min_l | done].
  - destruct IHa, IHb. split.
    + eapply Qle_trans; [| apply Q.le_max_l]. done.
    + apply Q.max_lub; auto.
Qed.

Lemma Qmin_zero_l a b : a == 0 -> 0 <= b -> Qmin a b == 0.
Proof. intros Ha Hb. rewrite Q.min_l; [done | lra]. Qed.

Lemma Qmax_one_l a b : a == 1 -> b <= 1 -> Qmax a b == 1.
Proof. intros Ha Hb. rewrite Q.max_l; [done | lra]. Qed.

Lemma Qmax_zero a b : a == 0 -> b == 0 -> Qmax a b == 0.
Proof. intros Ha Hb. rewrite Q.max_l; [done | lra]. Qed.

Lemma strength_and_zero m a b :
  (forall t, unit_interval (m t)) ->
  strength m a == 0 -> strength m (And a b) == 0.
Proof.
  intros Hm Ha. simpl. apply Qmin_zero_l; [done |].
  by destruct (strength_bounds m b Hm).
Qed.

Lemma fuzzify_rain_1 i :
  in_rain i = inject_Z 1 -> fuzzify i rain_rain == 1 /\ fuzzify i rain_no_rain == 0.
Proof.
  intros H. unfold fuzzify. simpl variable_of. simpl input_of. rewrite H.
  split; vm_compute; reflexivity.
Qed.

Lemma fuzzify_rain_0 i :
  in_rain i = inject_Z 0 -> fuzzify i rain_rain == 0 /\ fuzzify i rain_no_rain == 1.
Proof.
  intros H. unfold fuzzify. simpl variable_of. simpl input_of. rewrite H.
  split; vm_compute; reflexivity.
Qed.

Lemma activation_rain i :
  in_rain i = inject_Z 1 ->
  activation i bad = 1 /\ activation i fair = 0 /\ activation i good = 0.
Proof.
  intros H. destruct (fuzzify_rain_1 i H) as [Hr Hn].
  pose proof (fuzzify_bounds i) as Hb.
  assert (Hz : forall a, strength (fuzzify i) (And rain_no_rain a) == 0).
  { intros a. by apply strength_and_zero. }
  unfold activation. cbn [List.filter rules rule_consequent output_set_eqb map fold_right].
  unfold firing_strength. cbn [rule_antecedent].
  repeat split.
  - change 1 with (Qred 1). apply Qred_complete.
    apply Qmax_one_l; [exact Hr |].
    apply Q.max_lub; [apply strength_bounds, Hb |].
    apply Q.max_lub; [apply strength_bounds, Hb | lra].
  - change 0 with (Qred 0). apply Qred_complete.
    apply Qmax_zero; [| apply Qmax_zero; [| apply Qmax_zero; [| reflexivity]]].
    + repeat (apply strength_and_zero; [exact Hb |]). exact Hn.
    + apply Hz.
    + exact Hn.
  - change 0 with (Qred 0). apply Qred_complete.
    apply Qmax_zero; [| reflexivity].
    repeat (apply strength_and_zero; [exact Hb |]). exact Hn.
Qed.

Lemma compute_rain i : in_rain i = inject_Z 1 -> compute i = Output 10.
Proof.
  intros H. destruct (activation_rain i H) as (Hb & Hf & Hg).
  destruct (fuzzify_rain_1 i H) as [Hr _].
  unfold compute. rewrite Hb, Hf, Hg.
  assert (Hfire : Qeq_bool (firing_strength i (Rule rain_rain bad)) 0 = false).
  { unfold firing_strength. simpl. apply not_true_is_false. intros Hq.
    apply Qeq_bool_eq in Hq. rewrite Hr in Hq. discriminate. }
  cbn [rules forallb]. rewrite Hfire. cbn [andb].
  vm_compute. reflexivity.
Qed.

Lemma float_between_finite lo hi x :
  float_between lo hi x = true ->
  exists q, x = FNum q /\ inject_Z lo <= q /\ q <= inject_Z hi.
Proof.
  destruct x as [q | |]; simpl; try discriminate.
  intros H. apply andb_prop in H as [H1 H2].
  exists q. repeat split; by apply Qle_bool_true.
Qed.

(** C1: with temperature in [0,50], humidity in [0,100] and rain set (any
    non-zero value, 1 for true), whatever the light and the hour, [evaluate]
    returns the category "buruk" (poor), with confidence 10. *)
Theorem rain_yields_poor (temperature humidity : pyfloat) (light rain time : Z) :
  float_between 0 50 temperature = true ->
  float_between 0 100 humidity = true ->
  rain <> 0%Z ->
  exists r log,
    evaluate compute temperature humidity light rain time = (Ok r, log) /\
    recommendation r = "buruk"%string /\ confidence r = 10.
Proof.
  intros Ht Hh Hr. unfold evaluate. rewrite Ht, Hh. cbn [negb].
  destruct (negb ((0 <=? light)%Z && (light <=? 4096)%Z));
    destruct (negb ((0 <=? time)%Z && (time <? 24)%Z));
    destruct (negb ((rain =? 0)%Z || (rain =? 1)%Z)) eqn:Er;
    cbv zeta;
    try (assert (rain = 1%Z) as ->
           by (apply negb_false_iff, orb_true_iff in Er as [Er | Er]; lia));
    try (destruct (Z.eqb_spec rain 0); [contradiction |]);
    rewrite compute_rain by reflexivity;
    eexists _, _; (split; [reflexivity |]); split; reflexivity.
Qed.

Lemma rain_yields_poor_witness :
  exists r log,
    evaluate compute (FNum 25) (FNum 60) 0 1 12 = (Ok r, log) /\
    recommendation r = "buruk"%string /\ confidence r = 10.
Proof. apply rain_yields_poor; [reflexivity | reflexivity | lia]. Defined.

Lemma chain_le l : forall lo hi, chain lo l hi -> lo <= hi.
Proof.
  induction l as [| x l IH]; simpl; intros lo hi H; [done |].
  destruct H as [H1 H2]. apply IH in H2. lra.
Qed.

Lemma chain_weaken l : forall lo lo' hi, lo' <= lo -> chain lo l hi -> chain lo' l hi.
Proof.
  destruct l as [| x l]; simpl; intros lo lo' hi H Hc; [lra |].
  destruct Hc. split; [lra | done].
Qed.

Lemma insert_point_chain x l : forall lo hi,
  lo <= x -> x <= hi -> chain lo l hi -> chain lo (insert_point x l) hi.
Proof.
  induction l as [| y l IH]; simpl; intros lo hi Hlo Hhi Hc.
  - done.
  - destruct Hc as [Hy Hc].
    destruct (x ?= y) eqn:E; simpl.
    + done.
    + apply Qlt_alt in E. repeat split; [done | lra | done].
    + apply Qgt_alt in E. split; [done |]. apply IH; [lra | done | done].
Qed.

Lemma fold_insert_chain lo hi pts :
  lo <= hi -> Forall (within lo hi) pts ->
  chain lo (fold_right insert_point [] pts) hi.
Proof.
  intros Hle. induction 1 as [| x pts [Hx1 Hx2] _ IH]; simpl; [done |].
  by apply insert_point_chain.
Qed.

Lemma crossing_within level x1 x2 y1 y2 :
  x1 <= x2 ->
  Qle_bool level y1 <> Qle_bool level y2 ->
  within x1 x2 (x1 + (level - y1) * (x2 - x1) / (y2 - y1)).
Proof.
  intros Hx Hflip.
  assert (Hcases : (y2 < level /\ level <= y1) \/ (y1 < level /\ level <= y2)).
  { destruct (Qle_bool level y1) eqn:E1, (Qle_bool level y2) eqn:E2; try congruence.
    - left. split; [by apply Qle_bool_false | by apply Qle_bool_true].
    - right. split; [by apply Qle_bool_false | by apply Qle_bool_true]. }
  assert (Hne : ~ y2 - y1 == 0) by (destruct Hcases; lra).
  set (r := (level - y1) / (y2 - y1)).
  assert (Hr : 0 <= r /\ r <= 1).
  { destruct Hcases as [[H1 H2] | [H1 H2]].
    - assert (Hr : r == (y1 - level) / (y1 - y2)) by (unfold r; field; lra).
      rewrite Hr. split.
      + apply Qle_shift_div_l; lra.
      + apply Qle_shift_div_r; lra.
    - unfold r. split.
      + apply Qle_shift_div_l; lra.
      + apply Qle_shift_div_r; lra. }
  assert (Heq : x1 + (level - y1) * (x2 - x1) / (y2 - y1) == x1 + r * (x2 - x1)).
  { unfold r. field. exact Hne. }
  unfold within. rewrite Heq. destruct Hr. split; nra.
Qed.

Lemma within_weaken lo hi lo' hi' x :
  lo' <= lo -> hi <= hi' -> within lo hi x -> within lo' hi' x.
Proof. unfold within. intros ? ? [? ?]. split; lra. Qed.

Lemma crossings_within level xs : forall ys lo hi,
  chain lo xs hi -> Forall (within lo hi) (crossings level xs ys).
Proof.
  induction xs as [| x1 xs IH]; intros ys lo hi Hc; simpl; [constructor |].
  destruct ys as [| y1 ys]; [constructor |].
  destruct xs as [| x2 xs]; [constructor |].
  destruct ys as [| y2 ys]; [constructor |].
  destruct Hc as [H1 Hc].
  apply Forall_app. split.
  - destruct (negb (Bool.eqb (Qle_bool level y1) (Qle_bool level y2))) eqn:E;
      [| constructor].
    constructor; [| constructor].
    destruct Hc as [H2 Hc]. apply chain_le in Hc.
    unfold within. rewrite Qred_correct.
    apply (within_weaken x1 x2); [done | lra |].
    apply crossing_within; [done |].
    intros Heq. rewrite Heq, Bool.eqb_reflx in E. discriminate.
  - apply (IH (y2 :: ys)). eapply chain_weaken; [| exact Hc]. done.
Qed.

Lemma sortedb_chain l : forall lo hi, sortedb lo l hi = true -> chain lo l hi.
Proof.
  induction l as [| x l IH]; simpl; intros lo hi H.
  - by apply Qle_bool_true.
  - apply andb_prop in H as [H1 H2]. split; [by apply Qle_bool_true | by apply IH].
Qed.

Lemma recommendation_universe_chain : chain 0 recommendation_universe 100.
Proof. apply sortedb_chain. vm_compute. reflexivity. Qed.

Lemma chain_within l : forall lo hi, chain lo l hi -> Forall (within lo hi) l.
Proof.
  induction l as [| x l IH]; simpl; intros lo hi H; [constructor |].
  destruct H as [H1 H2]. constructor.
  - split; [done | by apply chain_le in H2].
  - apply IH in H2. eapply Forall_impl; [exact H2 |].
    intros y Hy. eapply within_weaken; [| | exact Hy]; [done | lra].
Qed.

Lemma refined_universe_chain cut : chain 0 (refined_universe cut) 100.
Proof.
  unfold refined_universe. apply fold_insert_chain; [lra |].
  apply Forall_app. split.
  - apply chain_within, recommendation_universe_chain.
  - apply Forall_flat_map, List.Forall_forall. intros o _.
    apply Forall_flat_map, List.Forall_forall. intros o' _.
    apply crossings_within, recommendation_universe_chain.
Qed.

Lemma surface_nonneg cut x : 0 <= surface cut x.
Proof.
  unfold surface, output_sets. cbn [fold_left].
  eapply Qle_trans; [| apply Q.le_max_l].
  eapply Qle_trans; [| apply Q.le_max_l].
  apply Q.le_max_l.
Qed.

Lemma centre_within x1 x2 y1 y2 :
  x1 <= x2 -> 0 <= y1 -> 0 <= y2 -> ~ y1 + y2 == 0 ->
  within x1 x2 (x1 + (x2 - x1) * (y1 + 2 * y2) / (3 * (y1 + y2))).
Proof.
  intros Hx H1 H2 Hne.
  assert (Hpos : 0 < 3 * (y1 + y2)) by lra.
  set (r := (y1 + 2 * y2) / (3 * (y1 + y2))).
  assert (Hr : 0 <= r /\ r <= 1).
  { unfold r. split.
    - apply Qle_shift_div_l; lra.
    - apply Qle_shift_div_r; lra. }
  assert (Heq : x1 + (x2 - x1) * (y1 + 2 * y2) / (3 * (y1 + y2)) == x1 + r * (x2 - x1)).
  { unfold r. field. lra. }
  unfold within. rewrite Heq. destruct Hr. split; nra.
Qed.

Lemma moment_and_area_bounds lo hi pts : forall x1 y1,
  0 <= y1 -> Forall (fun p => 0 <= p.2) pts ->
  chain lo (x1 :: map fst pts) hi ->
  0 <= (moment_and_area x1 y1 pts).2 /\
  lo * (moment_and_area x1 y1 pts).2 <= (moment_and_area x1 y1 pts).1 /\
  (moment_and_area x1 y1 pts).1 <= hi * (moment_and_area x1 y1 pts).2.
Proof.
  induction pts as [| [x2 y2] pts IH]; intros x1 y1 Hy1 Hys Hc.
  - cbn [moment_and_area fst snd]. split; [| split]; lra.
  - inversion Hys as [| ? ? Hy2 Hys']; subst. simpl in Hy2.
    cbn [map fst chain] in Hc. destruct Hc as [Hlo [Hx Hc]].
    assert (Hc2 : chain lo (x2 :: map fst pts) hi).
    { split; [lra | exact Hc]. }
    specialize (IH x2 y2 Hy2 Hys' Hc2).
    cbn [moment_and_area].
    destruct (moment_and_area x2 y2 pts) as [m a]. cbn [fst snd] in IH.
    destruct IH as (Ha & Hm1 & Hm2).
    destruct (Qeq_bool (y1 + y2) 0) eqn:E; cbn [fst snd].
    + done.
    + assert (Hne : ~ y1 + y2 == 0).
      { intros He. apply Qeq_eq_bool in He. congruence. }
      pose proof (centre_within x1 x2 y1 y2 Hx Hy1 Hy2 Hne) as [Hc1 Hc3].
      set (c := x1 + (x2 - x1) * (y1 + 2 * y2) / (3 * (y1 + y2))) in *.
      assert (Hx2 : x2 <= hi) by (by apply chain_le in Hc).
      assert (Harea : 0 <= (x2 - x1) * (y1 + y2) / 2).
      { apply Qle_shift_div_l; [lra |]. nra. }
      set (ar := (x2 - x1) * (y1 + y2) / 2) in *.
      split; [| split]; nra.
Qed.

Lemma centroid_range cut : 0 <= centroid cut /\ centroid cut <= 100.
Proof.
  unfold centroid.
  pose proof (refined_universe_chain cut) as Hc.
  destruct (refined_universe cut) as [| x1 xs]; [simpl; lra |].
  cbn [map].
  set (pts := map (fun x => (x, surface cut x)) xs).
  assert (Hpts : Forall (fun p : Q * Q => 0 <= p.2) pts).
  { apply List.Forall_forall. intros p Hp. apply in_map_iff in Hp as (x & <- & _).
    apply surface_nonneg. }
  assert (Hfst : map fst pts = xs).
  { unfold pts. rewrite List.map_map. simpl. apply List.map_id. }
  pose proof (moment_and_area_bounds 0 100 pts x1 (surface cut x1)
                (surface_nonneg cut x1) Hpts) as H.
  rewrite Hfst in H. specialize (H Hc).
  destruct (moment_and_area x1 (surface cut x1) pts) as [m a]. cbn [fst snd] in H.
  destruct H as (Ha & Hm1 & Hm2).
  rewrite Qred_correct.
  destruct (Qeq_dec a 0) as [Hz | Hnz].
  - assert (Hq : m / a == 0).
    { rewrite Hz. unfold Qdiv. change (/ 0) with 0. ring. }
    rewrite Hq. lra.
  - assert (Hpos : 0 < a) by lra. split.
    + apply Qle_shift_div_l; lra.
    + apply Qle_shift_div_r; lra.
Qed.

Lemma compute_total i : compute i = NoOutput \/ exists q, compute i = Output q /\ 0 <= q /\ q <= 100.
Proof.
  unfold compute. destruct (forallb _ rules); [by left | right].
  eexists. split; [reflexivity |]. apply centroid_range.
Qed.

Lemma compute_no_rain i : in_rain i = inject_Z 0 -> exists q, compute i = Output q.
Proof.
  intros H. destruct (fuzzify_rain_0 i H) as [_ Hn].
  unfold compute.
  destruct (forallb _ rules) eqn:E; [| eexists; reflexivity].
  rewrite forallb_forall in E.
  specialize (E (Rule rain_no_rain fair)).
  assert (Hin : In (Rule rain_no_rain fair) rules) by (unfold rules; simpl; tauto).
  apply E, Qeq_bool_eq in Hin. unfold firing_strength in Hin. simpl in Hin.
  rewrite Hn in Hin. discriminate.
Qed.

Lemma category_thresholds q :
  (category q = "bagus"%string <-> 70 <= q) /\
  (category q = "cukup"%string <-> 30 <= q /\ q < 70) /\
  (category q = "buruk"%string <-> q < 30).
Proof.
  unfold category.
  destruct (Qle_bool 70 q) eqn:E70; destruct (Qle_bool 30 q) eqn:E30;
    try apply Qle_bool_true in E70; try apply Qle_bool_true in E30;
    try apply Qle_bool_false in E70; try apply Qle_bool_false in E30;
    repeat split; intros; try discriminate; try lra; try reflexivity.
Qed.

(** C3: with temperature in [0,50] and humidity in [0,100], whatever the
    light, rain and hour, [evaluate] returns a result whose confidence is in
    [0,100] and whose category is "bagus" iff confidence >= 70, "cukup" iff
    30 <= confidence < 70, "buruk" iff confidence < 30. *)
Theorem evaluate_confidence_and_category
  (temperature humidity : pyfloat) (light rain time : Z) :
  float_between 0 50 temperature = true ->
  float_between 0 100 humidity = true ->
  exists r log,
    evaluate compute temperature humidity light rain time = (Ok r, log) /\
    0 <= confidence r /\ confidence r <= 100 /\
    (recommendation r = "bagus"%string <-> 70 <= confidence r) /\
    (recommendation r = "cukup"%string <-> 30 <= confidence r /\ confidence r < 70) /\
    (recommendation r = "buruk"%string <-> confidence r < 30).
Proof.
  intros Ht Hh. unfold evaluate. rewrite Ht, Hh. cbn [negb].
  destruct (negb ((0 <=? light)%Z && (light <=? 4096)%Z));
    destruct (negb ((rain =? 0)%Z || (rain =? 1)%Z));
    destruct (negb ((0 <=? time)%Z && (time <? 24)%Z));
    cbv zeta;
    match goal with
    | |- context [compute ?i] =>
        destruct (compute_total i) as [-> | (q & -> & Hq0 & Hq1)]
    end;
    eexists _, _; (split; [reflexivity |]); cbn [confidence recommendation];
    (split; [lra |]); (split; [lra |]); apply category_thresholds.
Qed.

Lemma evaluate_confidence_and_category_witness :
  exists r log,
    evaluate compute (FNum (57 # 2)) (FNum 55) 1800 0 21 = (Ok r, log) /\
    0 <= confidence r /\ confidence r <= 100 /\
    (recommendation r = "bagus"%string <-> 70 <= confidence r) /\
    (recommendation r = "cukup"%string <-> 30 <= confidence r /\ confidence r < 70) /\
    (recommendation r = "buruk"%string <-> confidence r < 30).
Proof. apply evaluate_confidence_and_category; reflexivity. Defined.

Lemma some_rule_fires i :
  in_rain i = inject_Z 0 \/ in_rain i = inject_Z 1 ->
  Exists (fun ru => ~ firing_strength i ru == 0) rules.
Proof.
  intros [H | H]; apply List.Exists_exists.
  - exists (Rule rain_no_rain fair). split; [unfold rules; simpl; tauto |].
    destruct (fuzzify_rain_0 i H) as [_ Hn].
    unfold firing_strength. cbn [rule_antecedent strength]. rewrite Hn. discriminate.
  - exists (Rule rain_rain bad). split; [unfold rules; simpl; tauto |].
    destruct (fuzzify_rain_1 i H) as [Hr _].
    unfold firing_strength. cbn [rule_antecedent strength]. rewrite Hr. discriminate.
Qed.

Lemma compute_output i :
  in_rain i = inject_Z 0 \/ in_rain i = inject_Z 1 -> exists q, compute i = Output q.
Proof.
  intros [H | H]; [by apply compute_no_rain |].
  exists 10. by apply compute_rain.
Qed.

Lemma rain_coerced rain :
  (if negb ((rain =? 0)%Z || (rain =? 1)%Z)
   then (if (rain =? 0)%Z then 0%Z else 1%Z, [WarnRainConverted (if (rain =? 0)%Z then 0 else 1)])
   else (rain, []))
  = (0%Z, []) \/
  (if negb ((rain =? 0)%Z || (rain =? 1)%Z)
   then (if (rain =? 0)%Z then 0%Z else 1%Z, [WarnRainConverted (if (rain =? 0)%Z then 0 else 1)])
   else (rain, []))
  = (1%Z, []) \/
  (if negb ((rain =? 0)%Z || (rain =? 1)%Z)
   then (if (rain =? 0)%Z then 0%Z else 1%Z, [WarnRainConverted (if (rain =? 0)%Z then 0 else 1)])
   else (rain, []))
  = (1%Z, [WarnRainConverted 1]).
Proof.
  destruct (Z.eqb_spec rain 0) as [-> | H0]; [by left |].
  destruct (Z.eqb_spec rain 1) as [-> | H1]; [by right; left |].
  by right; right.
Qed.

(** C2: the situation of the claim, no rule with a nonzero firing strength,
    arises at no input that [evaluate] accepts, so that no result is left
    unmarked.  With temperature in [0,50] and humidity in [0,100], whatever
    the light, rain and hour: some rule has a nonzero firing strength on the
    inputs set on the simulation, the confidence returned is the centroid
    computed from them, and the default is not substituted (no warning of it
    is logged). *)
Theorem default_never_substituted
  (temperature humidity : pyfloat) (light rain time : Z) :
  float_between 0 50 temperature = true ->
  float_between 0 100 humidity = true ->
  exists r log,
    evaluate compute temperature humidity light rain time = (Ok r, log) /\
    Exists (fun ru => ~ firing_strength (simulation_inputs (parameters r)) ru == 0) rules /\
    compute (simulation_inputs (parameters r)) = Output (confidence r) /\
    ~ In WarnNoRulesActivated log.
Proof.
  intros Ht Hh. unfold evaluate. rewrite Ht, Hh. cbn [negb].
  destruct (negb ((0 <=? light)%Z && (light <=? 4096)%Z));
    destruct (negb ((0 <=? time)%Z && (time <? 24)%Z));
    (destruct (rain_coerced rain) as [-> | [-> | ->]]);
    cbv zeta;
    match goal with
    | |- context [compute ?i] =>
        let Hi := fresh "Hi" in
        assert (Hi : in_rain i = inject_Z 0 \/ in_rain i = inject_Z 1)
          by (first [by left | by right]);
        pose proof (some_rule_fires i Hi) as Hfire;
        destruct (compute_output i Hi) as [q Hq];
        rewrite Hq
    end;
    eexists _, _; (split; [reflexivity |]);
    cbn [parameters confidence simulation_inputs
         p_temperature p_humidity p_light p_rain p_time];
    (split; [exact Hfire |]); (split; [exact Hq |]);
    cbn [app]; intros Hin; cbn [In] in Hin; intuition discriminate.
Qed.

Lemma default_never_substituted_witness :
  exists r log,
    evaluate compute (FNum 25) (FNum 60) 0 0 3 = (Ok r, log) /\
    Exists (fun ru => ~ firing_strength (simulation_inputs (parameters r)) ru == 0) rules /\
    compute (simulation_inputs (parameters r)) = Output (confidence r) /\
    ~ In WarnNoRulesActivated log.
Proof. apply default_never_substituted; reflexivity. Defined.

(** ** Normalisation of the request and activation of the rules *)

Lemma light_normalised light :
  exists lg,
    (if negb ((0 <=? light)%Z && (light <=? 4096)%Z)
     then (Z.max 0 (Z.min light 4096), [WarnLightClamped (Z.max 0 (Z.min light 4096))])
     else (light, []))
    = (clamp_light light, lg) /\
    (lg = [] <-> (0 <= light <= 4096)%Z).
Proof.
  unfold clamp_light.
  destruct (Z.leb_spec 0 light); destruct (Z.leb_spec light 4096); cbn [andb negb];
    eexists; (split; [try reflexivity; f_equal; lia |]); split; (lia || done).
Qed.

Lemma rain_normalised rain :
  exists lg,
    (if negb ((rain =? 0)%Z || (rain =? 1)%Z)
     then (if (rain =? 0)%Z then 0%Z else 1%Z,
           [WarnRainConverted (if (rain =? 0)%Z then 0 else 1)])
     else (rain, []))
    = (coerce_rain rain, lg) /\
    (lg = [] <-> (rain = 0 \/ rain = 1)%Z).
Proof.
  unfold coerce_rain.
  destruct (Z.eqb_spec rain 0) as [-> | H0]; [eexists; split; [reflexivity |]; by split; auto |].
  destruct (Z.eqb_spec rain 1) as [-> | H1]; [eexists; split; [reflexivity |]; by split; auto |].
  eexists. split; [reflexivity |]. split; [done | lia].
Qed.

Lemma time_normalised time :
  exists lg,
    (if negb ((0 <=? time)%Z && (time <? 24)%Z)
     then ((time mod 24)%Z, [WarnTimeNormalized (time mod 24)])
     else (time, []))
    = (wrap_hour time, lg) /\
    (lg = [] <-> (0 <= time < 24)%Z).
Proof.
  unfold wrap_hour.
  destruct (Z.leb_spec 0 time); destruct (Z.ltb_spec time 24); cbn [andb negb];
    eexists; (split; [try reflexivity; f_equal; symmetry; apply Z.mod_small; lia |]);
    split; (lia || done).
Qed.

Lemma normalised_normal light rain time :
  normal (clamp_light light) (coerce_rain rain) (wrap_hour time).
Proof.
  unfold normal, clamp_light, coerce_rain, wrap_hour.
  split; [lia |]. split; [destruct (rain =? 0)%Z; lia |].
  apply Z.mod_pos_bound. lia.
Qed.

Lemma normal_fixed light rain time :
  normal light rain time ->
  clamp_light light = light /\ coerce_rain rain = rain /\ wrap_hour time = time.
Proof.
  unfold normal, clamp_light, coerce_rain, wrap_hour. intros (Hl & Hr & Ht).
  split; [lia |]. split; [by destruct Hr as [-> | ->] |].
  apply Z.mod_small. lia.
Qed.

(** What [evaluate] does after the two range checks, in terms of the
    normalised request. *)
Lemma evaluate_normalised (simulation : inputs -> compute_outcome)
  (temperature humidity : pyfloat) (light rain time : Z) :
  float_between 0 50 temperature = true ->
  float_between 0 100 humidity = true ->
  exists lg,
    evaluate simulation temperature humidity light rain time
    = match simulation {| in_temperature := finite temperature;
                          in_humidity := finite humidity;
                          in_light := inject_Z (clamp_light light);
                          in_rain := inject_Z (coerce_rain rain);
                          in_time := inject_Z (wrap_hour time) |} with
      | Output q =>
          (Ok {| recommendation := category q; confidence := q; status := "success";
                 rules_activated := ["rule1"; "rule3"]%string;
                 parameters := mkInputParameters temperature humidity (clamp_light light)
                                 (coerce_rain rain) (wrap_hour time) |},
           InfoEvaluating temperature humidity light rain time :: lg)
      | NoOutput =>
          (Ok {| recommendation := category 50; confidence := 50; status := "success";
                 rules_activated := ["rule1"; "rule3"]%string;
                 parameters := mkInputParameters temperature humidity (clamp_light light)
                                 (coerce_rain rain) (wrap_hour time) |},
           InfoEvaluating temperature humidity light rain time
             :: lg ++ [WarnNoRulesActivated])
      | ComputeValueError detail =>
          (Error (mkHTTPException 400 detail),
           InfoEvaluating temperature humidity light rain time
             :: lg ++ [WarnInputValidation detail])
      | ComputeError =>
          (Error (mkHTTPException 500 "Internal server error during fuzzy evaluation"),
           InfoEvaluating temperature humidity light rain time
             :: lg ++ [ErrorFuzzyEvaluation])
      end /\
    (lg = [] <-> normal light rain time).
Proof.
  intros Ht Hh. unfold evaluate. rewrite Ht, Hh. cbn [negb].
  destruct (light_normalised light) as (l1 & -> & H1).
  destruct (rain_normalised rain) as (l2 & -> & H2).
  destruct (time_normalised time) as (l3 & -> & H3).
  cbv zeta. exists (l1 ++ l2 ++ l3). split.
  - destruct (simulation _); reflexivity.
  - unfold normal. rewrite <- H1, <- H2, <- H3. split.
    + intros E. apply app_eq_nil in E as [-> E]. by apply app_eq_nil in E as [-> ->].
    + by intros (-> & -> & ->).
Qed.



Lemma activation_unit i o : unit_interval (activation i o).
Proof.
  assert (Hs : forall a, unit_interval (strength (fuzzify i) a)).
  { intros a. apply strength_bounds, fuzzify_bounds. }
  unfold activation, unit_interval. rewrite Qred_correct.
  induction (List.filter _ rules) as [| ru l IH]; cbn [map fold_right]; [lra |].
  destruct (Hs (rule_antecedent ru)) as [H0 H1]. destruct IH as [IH0 IH1].
  unfold firing_strength. split.
  - eapply Qle_trans; [exact H0 | apply Q.le_max_l].
  - by apply Q.max_lub.
Qed.

Lemma activation_fair_no_rain i : in_rain i = inject_Z 0 -> activation i fair = 1.
Proof.
  intros H. destruct (fuzzify_rain_0 i H) as [Hr Hn].
  unfold activation. cbn [List.filter rules rule_consequent output_set_eqb map fold_right].
  change 1 with (Qred 1). apply Qred_complete.
  assert (Hs : forall a, unit_interval (strength (fuzzify i) a)).
  { intros a. apply strength_bounds, fuzzify_bounds. }
  unfold firing_strength at 3. cbn [rule_antecedent strength].
  rewrite Hn.
  assert (Hq : Qmax 1 0 == 1) by (apply Q.max_l; lra).
  rewrite Hq.
  rewrite Q.max_r.
  - apply Q.max_r. apply Hs.
  - eapply Qle_trans; [apply Hs | apply Q.le_max_r].
Qed.





(** ** The centroid when the default rule fires *)

Lemma moment_about_linear c alpha beta x1 x2 :
  moment_about c x1 (alpha * x1 + beta) x2 (alpha * x2 + beta)
  == primitive c alpha beta x2 - primitive c alpha beta x1.
Proof. unfold moment_about, primitive. field. Qed.

Lemma moment_about_diff c x1 y1 x2 y2 l1 l2 :
  moment_about c x1 y1 x2 y2 - moment_about c x1 l1 x2 l2
  == (x2 - x1) * ((y1 - l1) * (2 * x1 + x2 - 3 * c) + (y2 - l2) * (x1 + 2 * x2 - 3 * c)) / 6.
Proof. unfold moment_about. field. Qed.

Lemma sign_product d a u b v :
  0 <= d -> 0 <= a -> 0 <= b -> u <= 0 -> v <= 0 -> d * (a * u + b * v) / 6 <= 0.
Proof.
  intros Hd Ha Hb Hu Hv.
  assert (H1 : a * u <= 0) by nra.
  assert (H2 : b * v <= 0) by nra.
  assert (H3 : d * (a * u + b * v) <= 0) by nra.
  apply Qle_shift_div_r; lra.
Qed.

Lemma moment_about_le c x1 y1 x2 y2 l1 l2 :
  x1 <= x2 ->
  (x2 <= c /\ l1 <= y1 /\ l2 <= y2) \/ (c <= x1 /\ y1 <= l1 /\ y2 <= l2) ->
  moment_about c x1 y1 x2 y2 <= moment_about c x1 l1 x2 l2.
Proof.
  intros Hx H.
  pose proof (moment_about_diff c x1 y1 x2 y2 l1 l2) as Hd.
  assert (Hle : (x2 - x1) * ((y1 - l1) * (2 * x1 + x2 - 3 * c)
                             + (y2 - l2) * (x1 + 2 * x2 - 3 * c)) / 6 <= 0).
  { destruct H as [(Hc & H1 & H2) | (Hc & H1 & H2)].
    - apply sign_product; lra.
    - assert (He : (x2 - x1) * ((y1 - l1) * (2 * x1 + x2 - 3 * c)
                                + (y2 - l2) * (x1 + 2 * x2 - 3 * c)) / 6
                   == (x2 - x1) * ((l1 - y1) * (- (2 * x1 + x2 - 3 * c))
                                   + (l2 - y2) * (- (x1 + 2 * x2 - 3 * c))) / 6) by field.
      rewrite He. apply sign_product; lra. }
  lra.
Qed.

Lemma moment_about_ge c x1 y1 x2 y2 l1 l2 :
  x1 <= x2 ->
  (x2 <= c /\ y1 <= l1 /\ y2 <= l2) \/ (c <= x1 /\ l1 <= y1 /\ l2 <= y2) ->
  moment_about c x1 l1 x2 l2 <= moment_about c x1 y1 x2 y2.
Proof.
  intros Hx H. apply moment_about_le; [done |].
  destruct H as [H | H]; [by left | by right].
Qed.

(** One step of [moment_and_area] adds the moment of its trapezium. *)
Lemma moment_and_area_step c x1 y1 x2 y2 pts :
  0 <= y1 -> 0 <= y2 ->
  (moment_and_area x1 y1 ((x2, y2) :: pts)).1 - c * (moment_and_area x1 y1 ((x2, y2) :: pts)).2
  == moment_about c x1 y1 x2 y2
     + ((moment_and_area x2 y2 pts).1 - c * (moment_and_area x2 y2 pts).2).
Proof.
  intros H1 H2. cbn [moment_and_area].
  destruct (moment_and_area x2 y2 pts) as [m a].
  destruct (Qeq_bool (y1 + y2) 0) eqn:E; cbn [fst snd].
  - apply Qeq_bool_eq in E.
    assert (E1 : y1 == 0) by lra. assert (E2 : y2 == 0) by lra.
    unfold moment_about. rewrite E1, E2. field.
  - assert (Hne : ~ y1 + y2 == 0).
    { intros He. apply Qeq_eq_bool in He. congruence. }
    unfold moment_about. field. exact Hne.
Qed.

Lemma last_cons (xs : list Q) : forall x1 x2,
  List.last (x2 :: xs) x1 = List.last xs x2.
Proof.
  induction xs as [| y xs IH]; intros x1 x2; [reflexivity |].
  change (List.last (x2 :: y :: xs) x1) with (List.last (y :: xs) x1).
  by rewrite (IH x1 y), (IH x2 y).
Qed.

Lemma moment_sum_le c (phi s : Q -> Q) (seg : Q -> Q -> Prop) :
  (forall x1 x2, seg x1 x2 -> moment_about c x1 (s x1) x2 (s x2) <= phi x2 - phi x1) ->
  (forall x, 0 <= s x) ->
  forall xs x1,
    segments seg x1 xs ->
    (moment_and_area x1 (s x1) (map (fun x => (x, s x)) xs)).1
    - c * (moment_and_area x1 (s x1) (map (fun x => (x, s x)) xs)).2
    <= phi (List.last xs x1) - phi x1.
Proof.
  intros Hstep Hs. induction xs as [| x2 xs IH]; intros x1 Hseg.
  - cbn. lra.
  - destruct Hseg as [H12 Hseg]. cbn [map].
    rewrite moment_and_area_step by apply Hs.
    specialize (IH x2 Hseg). specialize (Hstep x1 x2 H12).
    rewrite last_cons. lra.
Qed.

Lemma moment_sum_ge c (phi s : Q -> Q) (seg : Q -> Q -> Prop) :
  (forall x1 x2, seg x1 x2 -> phi x2 - phi x1 <= moment_about c x1 (s x1) x2 (s x2)) ->
  (forall x, 0 <= s x) ->
  forall xs x1,
    segments seg x1 xs ->
    phi (List.last xs x1) - phi x1
    <= (moment_and_area x1 (s x1) (map (fun x => (x, s x)) xs)).1
       - c * (moment_and_area x1 (s x1) (map (fun x => (x, s x)) xs)).2.
Proof.
  intros Hstep Hs. induction xs as [| x2 xs IH]; intros x1 Hseg.
  - cbn. lra.
  - destruct Hseg as [H12 Hseg]. cbn [map].
    rewrite moment_and_area_step by apply Hs.
    specialize (IH x2 Hseg). specialize (Hstep x1 x2 H12).
    rewrite last_cons. lra.
Qed.

(** *** The refined universe holds every point of the universe *)

Lemma insert_point_mem x l : Exists (Qeq x) (insert_point x l).
Proof.
  induction l as [| y l IH]; simpl.
  - by constructor.
  - destruct (x ?= y) eqn:E.
    + apply Qeq_alt in E. by constructor.
    + by constructor.
    + by apply Exists_cons_tl.
Qed.

Lemma insert_point_keeps x p l :
  Exists (Qeq p) l -> Exists (Qeq p) (insert_point x l).
Proof.
  induction l as [| y l IH]; simpl; intros H.
  - inversion H.
  - destruct (x ?= y) eqn:E.
    + done.
    + by apply Exists_cons_tl.
    + apply Exists_cons in H as [H | H].
      * by constructor.
      * by apply Exists_cons_tl, IH.
Qed.

Lemma fold_insert_mem p pts :
  In p pts -> Exists (Qeq p) (fold_right insert_point [] pts).
Proof.
  induction pts as [| x pts IH]; simpl; intros H; [done |].
  destruct H as [-> | H].
  - apply insert_point_mem.
  - by apply insert_point_keeps, IH.
Qed.

Lemma refined_universe_mem cut p :
  In p recommendation_universe -> Exists (Qeq p) (refined_universe cut).
Proof.
  intros H. unfold refined_universe. apply fold_insert_mem, in_app_iff. by left.
Qed.

Lemma chain_lower l : forall lo hi p,
  chain lo l hi -> Exists (Qeq p) l -> lo <= p /\ p <= hi.
Proof.
  intros lo hi p Hc He. apply chain_within in Hc.
  apply List.Exists_exists in He as (x & Hx & Hp).
  rewrite List.Forall_forall in Hc. destruct (Hc x Hx) as [H1 H2]. lra.
Qed.

Lemma chain_segments lo hi ps xs : forall x1,
  chain lo (x1 :: xs) hi ->
  Forall (fun p => p <= x1 \/ Exists (Qeq p) (x1 :: xs)) ps ->
  segments (separated lo hi ps) x1 xs.
Proof.
  induction xs as [| x2 xs IH]; intros x1 Hc Hps; [done |].
  cbn [chain] in Hc. destruct Hc as (Hlo & H12 & Hc).
  pose proof (chain_le _ _ _ Hc) as Hhi.
  split.
  - repeat split; [done | done | done |].
    eapply Forall_impl; [exact Hps |]. intros p [Hp | Hp]; [by right |].
    apply Exists_cons in Hp as [Hp | Hp]; [right; lra |].
    left. assert (Hc' : chain x2 (x2 :: xs) hi) by (split; [lra | done]).
    by destruct (chain_lower _ _ _ p Hc' Hp).
  - apply IH.
    + split; [lra | done].
    + eapply Forall_impl; [exact Hps |]. intros p [Hp | Hp]; [left; lra |].
      apply Exists_cons in Hp as [Hp | Hp]; [left; lra | by right].
Qed.

Lemma chain_last hi xs : forall lo x1,
  chain lo (x1 :: xs) hi ->
  hi <= x1 \/ Exists (Qeq hi) (x1 :: xs) ->
  List.last xs x1 == hi.
Proof.
  induction xs as [| x2 xs IH]; intros lo x1 Hc Hp.
  - cbn in *. destruct Hc as [H1 H2].
    destruct Hp as [Hp | Hp]; [lra |].
    apply Exists_cons in Hp as [Hp | Hp]; [lra | inversion Hp].
  - rewrite last_cons. cbn [chain] in Hc. destruct Hc as (Hlo & H12 & Hc).
    apply (IH x1); [split; [lra | done] |].
    destruct Hp as [Hp | Hp]; [left; lra |].
    apply Exists_cons in Hp as [Hp | Hp]; [left; lra | by right].
Qed.

Lemma chain_first lo hi x1 xs :
  chain lo (x1 :: xs) hi -> Exists (Qeq lo) (x1 :: xs) -> x1 == lo.
Proof.
  intros Hc Hp. cbn [chain] in Hc. destruct Hc as [Hlo Hc].
  apply Exists_cons in Hp as [Hp | Hp]; [lra |].
  destruct xs as [| x2 xs]; [inversion Hp |].
  assert (Hc' : chain x1 (x2 :: xs) hi) by exact Hc.
  destruct (chain_lower _ _ _ lo Hc' Hp). lra.
Qed.

(** *** A linear minorant of a sampled membership function *)

Lemma sample_above_spec alpha beta lo hi x y :
  sample_above alpha beta lo hi x y = true -> lo <= x -> x <= hi -> alpha * x + beta <= y.
Proof.
  unfold sample_above. intros H H1 H2.
  apply Qle_bool_iff in H1, H2. rewrite H1, H2 in H. simpl in H.
  by apply Qle_bool_true.
Qed.

Lemma Qlt_bool_true x y : Qlt_bool x y = true -> x < y.
Proof.
  unfold Qlt_bool. intros H. apply Qle_bool_false. by destruct (Qle_bool y x).
Qed.

Lemma segment_above alpha beta x0 y0 x1 y1 x :
  x0 < x1 -> x0 <= x -> x <= x1 ->
  (x == x0 \/ alpha * x1 + beta <= y1) ->
  (x == x1 \/ alpha * x0 + beta <= y0) ->
  alpha * x + beta <= y0 + (x - x0) * (y1 - y0) / (x1 - x0).
Proof.
  intros Hlt H0 H1 Ha Hb.
  set (t := (x - x0) / (x1 - x0)).
  assert (Ht0 : 0 <= t) by (unfold t; apply Qle_shift_div_l; lra).
  assert (Ht1 : t <= 1) by (unfold t; apply Qle_shift_div_r; lra).
  assert (Hx : x == x0 + t * (x1 - x0)) by (unfold t; field; lra).
  assert (Hv : y0 + (x - x0) * (y1 - y0) / (x1 - x0) == y0 + t * (y1 - y0))
    by (unfold t; field; lra).
  rewrite Hv.
  assert (Hl : alpha * x + beta
               == (1 - t) * (alpha * x0 + beta) + t * (alpha * x1 + beta)).
  { rewrite Hx at 1. ring. }
  rewrite Hl.
  assert (Hy : y0 + t * (y1 - y0) == (1 - t) * y0 + t * y1) by ring.
  rewrite Hy.
  assert (H1t : (1 - t) * (alpha * x0 + beta) <= (1 - t) * y0).
  { destruct Hb as [Hb | Hb].
    - assert (Et : t == 1).
      { unfold t. rewrite Hb. field. lra. }
      rewrite Et. lra.
    - nra. }
  assert (H2t : t * (alpha * x1 + beta) <= t * y1).
  { destruct Ha as [Ha | Ha].
    - assert (Et : t == 0).
      { unfold t. rewrite Ha. field. lra. }
      rewrite Et. lra.
    - nra. }
  lra.
Qed.

Lemma minorant_from_spec alpha beta lo hi xs : forall ys x0 y0 x,
  minorant_from alpha beta lo hi x0 y0 xs ys = true ->
  x0 <= x -> x <= List.last xs x0 -> lo <= x -> x <= hi ->
  alpha * x + beta <= interp_from x0 y0 xs ys x.
Proof.
  induction xs as [| x1 xs IH]; intros ys x0 y0 x Hm H0 Hl Hlo Hhi.
  - cbn in Hl. assert (E : x == x0) by lra.
    cbn [minorant_from] in Hm.
    assert (Hv : interp_from x0 y0 [] ys x = y0).
    { cbn. apply Qeq_eq_bool in E. by rewrite E. }
    rewrite Hv. rewrite E.
    apply (sample_above_spec alpha beta lo hi); [done | lra | lra].
  - destruct ys as [| y1 ys]; [discriminate |].
    cbn [minorant_from] in Hm.
    apply andb_prop in Hm as [Hm Hrec]. apply andb_prop in Hm as [Hm Hs1].
    apply andb_prop in Hm as [Hm Hs0]. apply andb_prop in Hm as [Hlt Hz].
    apply Qlt_bool_true in Hlt.
    cbn [interp_from]. destruct (Qle_bool x x1) eqn:E.
    + apply Qle_bool_true in E.
      apply segment_above; [done | done | done | |].
      * destruct (Qeq_dec x x0) as [| Hne]; [by left | right].
        apply (sample_above_spec alpha beta lo hi); [done | lra |].
        apply orb_prop in Hz as [Hz | Hz]; [apply orb_prop in Hz as [Hz | Hz] |].
        -- apply Qle_bool_true in Hz. lra.
        -- apply Qle_bool_true in Hz. lra.
        -- apply andb_prop in Hz as [_ Hz]. by apply Qle_bool_true in Hz.
      * destruct (Qeq_dec x x1) as [| Hne]; [by left | right].
        apply (sample_above_spec alpha beta lo hi); [done | | lra].
        apply orb_prop in Hz as [Hz | Hz]; [apply orb_prop in Hz as [Hz | Hz] |].
        -- apply Qle_bool_true in Hz. lra.
        -- apply Qle_bool_true in Hz. lra.
        -- apply andb_prop in Hz as [Hz _]. by apply Qle_bool_true in Hz.
    + apply Qle_bool_false in E. rewrite last_cons in Hl.
      apply IH; [done | lra | done | done | done].
Qed.

Lemma minorant_spec alpha beta lo hi xs ys x :
  minorant alpha beta lo hi xs ys = true ->
  lo <= x -> x <= hi ->
  alpha * x + beta <= interp_membership xs ys x.
Proof.
  unfold minorant, interp_membership.
  destruct xs as [| x0 xs]; [discriminate |].
  destruct ys as [| y0 ys]; [discriminate |].
  intros Hm Hlo Hhi.
  apply andb_prop in Hm as [Hm Hrec]. apply andb_prop in Hm as [H0 Hl].
  apply Qle_bool_true in H0, Hl.
  assert (E : Qlt_bool x x0 = false).
  { unfold Qlt_bool. assert (Hx : x0 <= x) by lra. apply Qle_bool_iff in Hx. by rewrite Hx. }
  rewrite E. apply (minorant_from_spec alpha beta lo hi); [done | lra | lra | done | done].
Qed.

Lemma fair_rising x :
  20 <= x -> x <= 50 ->
  (1 # 30) * x + (- 2 # 3) <= interp_membership recommendation_universe (output_mf fair) x.
Proof. apply minorant_spec. by vm_compute. Qed.

Lemma fair_falling x :
  50 <= x -> x <= 80 ->
  (- 1 # 30) * x + (8 # 3) <= interp_membership recommendation_universe (output_mf fair) x.
Proof. apply minorant_spec. by vm_compute. Qed.

(** *** The surface when "fair" is fully activated *)

Lemma surface_le_one cut x : (forall o, cut o <= 1) -> surface cut x <= 1.
Proof.
  intros H. unfold surface, output_sets. cbn [fold_left].
  repeat apply Q.max_lub; try lra;
    (eapply Qle_trans; [apply Q.le_min_l | apply H]).
Qed.

Lemma surface_above_fair cut x :
  cut fair == 1 ->
  interp_membership recommendation_universe (output_mf fair) x <= surface cut x.
Proof.
  intros H. unfold surface, output_sets. cbn [fold_left].
  eapply Qle_trans; [| apply Q.le_max_l].
  eapply Qle_trans; [| apply Q.le_max_r].
  apply Q.min_glb; [| lra].
  rewrite H.
  assert (Hf : Forall unit_interval (output_mf fair)).
  { apply in_unit_spec. by vm_compute. }
  by destruct (interp_membership_bounds recommendation_universe _ x Hf).
Qed.

(** *** Potentials *)

Lemma primitive_proper c alpha beta x y :
  x == y -> primitive c alpha beta x == primitive c alpha beta y.
Proof. intros H. unfold primitive. by rewrite H. Qed.

Lemma potential_zone1 c z1 z2 z3 z4 p1 p2 p3 x :
  x <= p1 -> potential c z1 z2 z3 z4 p1 p2 p3 x == primitive c z1.1 z1.2 x.
Proof.
  intros H. unfold potential. apply Qle_bool_iff in H. by rewrite H.
Qed.

Lemma potential_zone2 c z1 z2 z3 z4 p1 p2 p3 x :
  p1 <= x -> x <= p2 ->
  potential c z1 z2 z3 z4 p1 p2 p3 x
  == primitive c z1.1 z1.2 p1 + (primitive c z2.1 z2.2 x - primitive c z2.1 z2.2 p1).
Proof.
  intros H1 H2. unfold potential.
  destruct (Qle_bool x p1) eqn:E1.
  - apply Qle_bool_true in E1. assert (E : x == p1) by lra.
    rewrite (primitive_proper c z1.1 z1.2 x p1 E), (primitive_proper c z2.1 z2.2 x p1 E). ring.
  - apply Qle_bool_iff in H2. by rewrite H2.
Qed.

Lemma potential_zone3 c z1 z2 z3 z4 p1 p2 p3 x :
  p1 <= p2 -> p2 <= x -> x <= p3 ->
  potential c z1 z2 z3 z4 p1 p2 p3 x
  == primitive c z1.1 z1.2 p1 + (primitive c z2.1 z2.2 p2 - primitive c z2.1 z2.2 p1)
     + (primitive c z3.1 z3.2 x - primitive c z3.1 z3.2 p2).
Proof.
  intros H12 H2 H3.
  destruct (Qle_bool x p2) eqn:E2.
  - apply Qle_bool_true in E2. assert (E : x == p2) by lra.
    rewrite potential_zone2 by lra.
    rewrite (primitive_proper c z2.1 z2.2 x p2 E), (primitive_proper c z3.1 z3.2 x p2 E). ring.
  - unfold potential. rewrite E2.
    assert (E1 : Qle_bool x p1 = false).
    { apply Qle_bool_false in E2. apply not_true_is_false. intros Ht.
      apply Qle_bool_true in Ht. lra. }
    rewrite E1. apply Qle_bool_iff in H3. by rewrite H3.
Qed.

Lemma potential_zone4 c z1 z2 z3 z4 p1 p2 p3 x :
  p1 <= p2 -> p2 <= p3 -> p3 <= x ->
  potential c z1 z2 z3 z4 p1 p2 p3 x
  == primitive c z1.1 z1.2 p1 + (primitive c z2.1 z2.2 p2 - primitive c z2.1 z2.2 p1)
     + (primitive c z3.1 z3.2 p3 - primitive c z3.1 z3.2 p2)
     + (primitive c z4.1 z4.2 x - primitive c z4.1 z4.2 p3).
Proof.
  intros H12 H23 H3.
  destruct (Qle_bool x p3) eqn:E3.
  - apply Qle_bool_true in E3. assert (E : x == p3) by lra.
    rewrite potential_zone3 by lra.
    rewrite (primitive_proper c z3.1 z3.2 x p3 E), (primitive_proper c z4.1 z4.2 x p3 E). ring.
  - unfold potential. rewrite E3.
    apply Qle_bool_false in E3.
    assert (E1 : Qle_bool x p1 = false).
    { apply not_true_is_false. intros Ht. apply Qle_bool_true in Ht. lra. }
    assert (E2 : Qle_bool x p2 = false).
    { apply not_true_is_false. intros Ht. apply Qle_bool_true in Ht. lra. }
    by rewrite E1, E2.
Qed.

Section FairFull.

Variable cut : output_set -> Q.
Hypothesis Hcut : fair_full cut.

Lemma surface_unit x : 0 <= surface cut x /\ surface cut x <= 1.
Proof.
  split; [apply surface_nonneg |].
  apply surface_le_one. intros o. apply Hcut.
Qed.

Lemma surface_rising x :
  20 <= x -> x <= 50 -> (1 # 30) * x + (- 2 # 3) <= surface cut x.
Proof.
  intros H1 H2. eapply Qle_trans; [by apply fair_rising |].
  apply surface_above_fair, Hcut.
Qed.

Lemma surface_falling x :
  50 <= x -> x <= 80 -> (- 1 # 30) * x + (8 # 3) <= surface cut x.
Proof.
  intros H1 H2. eapply Qle_trans; [by apply fair_falling |].
  apply surface_above_fair, Hcut.
Qed.

Lemma step70 x1 x2 :
  separated 0 100 kinks x1 x2 ->
  moment_about 70 x1 (surface cut x1) x2 (surface cut x2) <= phi70 x2 - phi70 x1.
Proof.
  intros (Hlo & Hx & Hhi & Hk). unfold kinks in Hk.
  apply Forall_cons in Hk as [K20 Hk]. apply Forall_cons in Hk as [_ Hk].
  apply Forall_cons in Hk as [K50 Hk]. apply Forall_cons in Hk as [K70 _].
  pose proof (surface_unit x1) as [U1 V1]. pose proof (surface_unit x2) as [U2 V2].
  unfold phi70.
  destruct K20 as [K20 | K20].
  { rewrite !potential_zone1 by lra. cbn [fst snd].
    rewrite <- moment_about_linear. apply moment_about_le; [done | left; lra]. }
  destruct K50 as [K50 | K50].
  { rewrite !potential_zone2 by lra. cbn [fst snd].
    pose proof (surface_rising x1) as R1. pose proof (surface_rising x2) as R2.
    assert (E : forall a b d e : Q, a + (b - d) - (a + (e - d)) == b - e) by (intros; ring).
    rewrite E, <- moment_about_linear. apply moment_about_le; [done | left].
    split; [lra |]. split; [apply R1 | apply R2]; lra. }
  destruct K70 as [K70 | K70].
  { rewrite !potential_zone3 by lra. cbn [fst snd].
    pose proof (surface_falling x1) as R1. pose proof (surface_falling x2) as R2.
    assert (E : forall a b d e : Q, a + (b - d) - (a + (e - d)) == b - e) by (intros; ring).
    rewrite E, <- moment_about_linear. apply moment_about_le; [done | left].
    split; [lra |]. split; [apply R1 | apply R2]; lra. }
  rewrite !potential_zone4 by lra. cbn [fst snd].
  assert (E : forall a b d e : Q, a + (b - d) - (a + (e - d)) == b - e) by (intros; ring).
  rewrite E, <- moment_about_linear. apply moment_about_le; [done | right]. lra.
Qed.

Lemma step30 x1 x2 :
  separated 0 100 kinks x1 x2 ->
  phi30 x2 - phi30 x1 <= moment_about 30 x1 (surface cut x1) x2 (surface cut x2).
Proof.
  intros (Hlo & Hx & Hhi & Hk). unfold kinks in Hk.
  apply Forall_cons in Hk as [_ Hk]. apply Forall_cons in Hk as [K30 Hk].
  apply Forall_cons in Hk as [K50 Hk]. apply Forall_cons in Hk as [_ Hk].
  apply Forall_cons in Hk as [K80 _].
  pose proof (surface_unit x1) as [U1 V1]. pose proof (surface_unit x2) as [U2 V2].
  unfold phi30.
  assert (E : forall a b d e : Q, a + (b - d) - (a + (e - d)) == b - e) by (intros; ring).
  destruct K30 as [K30 | K30].
  { rewrite !potential_zone1 by lra. cbn [fst snd].
    rewrite <- moment_about_linear. apply moment_about_ge; [done | left; lra]. }
  destruct K50 as [K50 | K50].
  { rewrite !potential_zone2 by lra. cbn [fst snd].
    pose proof (surface_rising x1) as R1. pose proof (surface_rising x2) as R2.
    rewrite E, <- moment_about_linear. apply moment_about_ge; [done | right].
    split; [lra |]. split; [apply R1 | apply R2]; lra. }
  destruct K80 as [K80 | K80].
  { rewrite !potential_zone3 by lra. cbn [fst snd].
    pose proof (surface_falling x1) as R1. pose proof (surface_falling x2) as R2.
    rewrite E, <- moment_about_linear. apply moment_about_ge; [done | right].
    split; [lra |]. split; [apply R1 | apply R2]; lra. }
  rewrite !potential_zone4 by lra. cbn [fst snd].
  rewrite E, <- moment_about_linear. apply moment_about_ge; [done | right]. lra.
Qed.

End FairFull.

Lemma phi70_ends x1 x2 :
  x1 == 0 -> x2 == 100 -> phi70 x2 - phi70 x1 == - 1400 # 9.
Proof.
  intros H1 H2. unfold phi70.
  rewrite potential_zone4 by lra. rewrite potential_zone1 by lra. cbn [fst snd].
  rewrite (primitive_proper 70 0 1 x2 100 H2), (primitive_proper 70 0 0 x1 0 H1).
  by vm_compute.
Qed.

Lemma phi30_ends x1 x2 :
  x1 == 0 -> x2 == 100 -> phi30 x2 - phi30 x1 == 1400 # 9.
Proof.
  intros H1 H2. unfold phi30.
  rewrite potential_zone4 by lra. rewrite potential_zone1 by lra. cbn [fst snd].
  rewrite (primitive_proper 30 0 0 x2 100 H2), (primitive_proper 30 0 1 x1 0 H1).
  by vm_compute.
Qed.

Lemma universe_point (k : Z) : (0 <= k <= 100)%Z -> In (inject_Z k) recommendation_universe.
Proof.
  intros H. unfold recommendation_universe, arange. apply in_map_iff.
  exists k. split; [reflexivity |]. apply list_elem_of_In, elem_of_seqZ. lia.
Qed.

(** With "fair" fully activated the centroid is strictly between 30 and
    70, whatever the activation of "bad" and of "good". *)
Lemma centroid_fair_full cut :
  fair_full cut -> 30 < centroid cut /\ centroid cut < 70.
Proof.
  intros Hcut. unfold centroid.
  pose proof (refined_universe_chain cut) as Hc.
  pose proof (fun k Hk => refined_universe_mem cut _ (universe_point k Hk)) as Hmem.
  destruct (refined_universe cut) as [| x1 xs].
  { specialize (Hmem 0%Z ltac:(lia)). inversion Hmem. }
  cbn [map].
  assert (Hseg : segments (separated 0 100 kinks) x1 xs).
  { apply chain_segments; [done |]. unfold kinks.
    constructor; [right; apply (Hmem 20%Z); lia |].
    constructor; [right; apply (Hmem 30%Z); lia |].
    constructor; [right; apply (Hmem 50%Z); lia |].
    constructor; [right; apply (Hmem 70%Z); lia |].
    constructor; [right; apply (Hmem 80%Z); lia |].
    constructor. }
  assert (Hfirst : x1 == 0).
  { apply (chain_first 0 100 x1 xs Hc). apply (Hmem 0%Z); lia. }
  assert (Hlast : List.last xs x1 == 100).
  { apply (chain_last 100 xs 0 x1 Hc). right. apply (Hmem 100%Z); lia. }
  pose proof (moment_sum_le 70 phi70 (surface cut) _ (step70 cut Hcut)
                (surface_nonneg cut) xs x1 Hseg) as Hup.
  pose proof (moment_sum_ge 30 phi30 (surface cut) _ (step30 cut Hcut)
                (surface_nonneg cut) xs x1 Hseg) as Hdown.
  rewrite (phi70_ends _ _ Hfirst Hlast) in Hup.
  rewrite (phi30_ends _ _ Hfirst Hlast) in Hdown.
  set (pts := map (fun x => (x, surface cut x)) xs) in *.
  assert (Hpts : Forall (fun p : Q * Q => 0 <= p.2) pts).
  { apply List.Forall_forall. intros p Hp. apply in_map_iff in Hp as (x & <- & _).
    apply surface_nonneg. }
  assert (Hfst : map fst pts = xs).
  { unfold pts. rewrite List.map_map. simpl. apply List.map_id. }
  pose proof (moment_and_area_bounds 0 100 pts x1 (surface cut x1)
                (surface_nonneg cut x1) Hpts) as H.
  rewrite Hfst in H. specialize (H Hc).
  destruct (moment_and_area x1 (surface cut x1) pts) as [m a]. cbn [fst snd] in *.
  destruct H as (Ha & Hm1 & Hm2).
  assert (Hpos : 0 < a) by lra.
  rewrite Qred_correct. split.
  - apply Qlt_shift_div_l; lra.
  - apply Qlt_shift_div_r; lra.
Qed.

Lemma compute_no_rain_range i :
  in_rain i = inject_Z 0 -> exists q, compute i = Output q /\ 30 < q /\ q < 70.
Proof.
  intros H. destruct (fuzzify_rain_0 i H) as [_ Hn].
  unfold compute.
  destruct (forallb _ rules) eqn:E.
  { rewrite forallb_forall in E.
    specialize (E (Rule rain_no_rain fair)).
    assert (Hin : In (Rule rain_no_rain fair) rules) by (unfold rules; simpl; tauto).
    apply E, Qeq_bool_eq in Hin. unfold firing_strength in Hin. simpl in Hin.
    rewrite Hn in Hin. discriminate. }
  eexists. split; [reflexivity |].
  apply centroid_fair_full. split.
  - by rewrite (activation_fair_no_rain i H).
  - intros o. destruct o; apply activation_unit.
Qed.



End FuzzyProps.

(** * Rejected requests *)

(** C4: [evaluate] with a temperature outside [0,50] or a humidity outside
    [0,100] returns the error 400, whatever the simulation, which it never
    consults, and logs the evaluation and one warning; [publish_control] with
    an action other than "buka" and "tutup" returns a failure, leaves the
    client unchanged and makes no attempt and no publish. *)
Theorem invalid_requests_rejected :
  (forall simulation temperature humidity light rain time,
     Fuzzy.float_between 0 50 temperature = false \/
     Fuzzy.float_between 0 100 humidity = false ->
     exists detail,
       Fuzzy.evaluate simulation temperature humidity light rain time =
       (Fuzzy.Error (Fuzzy.mkHTTPException 400 detail),
        [Fuzzy.InfoEvaluating temperature humidity light rain time;
         Fuzzy.WarnInputValidation detail])) /\
  (forall action max_retries envs self,
     PyStr.mem action ["buka"; "tutup"] = false ->
     exists msg,
       Mqtt.publish_control action max_retries envs self =
       ((false, msg), self, [Log (ErrorInvalidCommand msg)])).
Proof.
  split.
  - intros simulation temperature humidity light rain time H.
    unfold Fuzzy.evaluate.
    destruct (Fuzzy.float_between 0 50 temperature) eqn:Et; cbn [negb].
    + destruct H as [H | H]; [discriminate H |]. rewrite H. cbn [negb].
      eexists. reflexivity.
    + eexists. reflexivity.
  - intros action max_retries envs self H. eexists.
    by apply MqttProps.invalid_action_rejected.
Qed.

Lemma invalid_requests_rejected_witness :
  (exists detail,
     Fuzzy.evaluate Fuzzy.compute (FNum 51) (FNum 60) 0 0 12 =
     (Fuzzy.Error (Fuzzy.mkHTTPException 400 detail),
      [Fuzzy.InfoEvaluating (FNum 51) (FNum 60) 0 0 12;
       Fuzzy.WarnInputValidation detail])) /\
  (exists msg,
     Mqtt.publish_control "stop" 3 (fun _ => MqttSpec.quiet_env) Mqtt.init =
     ((false, msg), Mqtt.init, [Log (ErrorInvalidCommand msg)])).
Proof.
  split.
  - apply (proj1 invalid_requests_rejected). left. reflexivity.
  - apply (proj2 invalid_requests_rejected). reflexivity.
Defined.
